(** * A binary search tree with an explicit-stack iterator (tree.hpp)

    Shallow embedding of the three class templates of [tree.hpp]:
    [BinaryTreeNode<K,V>], [BinaryTree<K,V>] and [BinaryTreeIterator<K,V>].

    - A [BinaryTreeNode<K,V>*] is an [option BinaryTreeNode]: [None] is
      [nullptr].  A node owns its children, so the heap below a pointer is
      the node value itself.
    - The operators [<], [==] and [>] that the template expects of [K] are
      the class [KeyOps]; what the header assumes of them is [KeyLaws].
    - [V &] results are locations: the path from the node the method ran on
      down to the node whose [value] member is referred to.
    - The iterator only reads nodes, so the pointers it stores are the node
      values they point to.  Its methods run in a small state-and-exception
      monad over the iterator's two data members. *)

From Stdlib Require Import List Bool ZArith Lia Sorted Permutation.
Import ListNotations.

Set Implicit Arguments.

(** ** The key and value interfaces *)

(** The three comparison operators the templates apply to [const K &]. *)
Class KeyOps (K : Type) := {
  key_lt : K -> K -> bool;   (* k < key  *)
  key_eq : K -> K -> bool;   (* k == key *)
  key_gt : K -> K -> bool    (* k > key  *)
}.

(** [V] is default-constructed by [BinaryTreeNode(const K &keyin)]. *)
Class Default (V : Type) := { default_value : V }.

(** A strict total order, with [==] deciding equality and [>] the converse
    of [<]. *)
Class KeyLaws (K : Type) `{KeyOps K} : Prop := {
  key_eq_spec   : forall a b : K, key_eq a b = true <-> a = b;
  key_gt_lt     : forall a b : K, key_gt a b = key_lt b a;
  key_lt_irrefl : forall a : K, key_lt a a = false;
  key_lt_trans  : forall a b c : K,
      key_lt a b = true -> key_lt b c = true -> key_lt a c = true;
  key_lt_total  : forall a b : K,
      key_lt a b = true \/ a = b \/ key_lt b a = true
}.

Arguments KeyLaws K {_}.

(** For any two keys exactly one of [<], [==], [>] holds. *)
Definition trichotomy (K : Type) `{KeyOps K} : Prop :=
  forall a b : K,
    (key_lt a b = true  /\ key_eq a b = false /\ key_gt a b = false) \/
    (key_lt a b = false /\ key_eq a b = true  /\ key_gt a b = false) \/
    (key_lt a b = false /\ key_eq a b = false /\ key_gt a b = true).

Arguments trichotomy K {_}.

(** The three ways two keys can compare, with what each operator says. *)
Inductive compared {K : Type} `{KeyOps K} (a b : K) : Prop :=
| IsLess :
    key_lt a b = true -> key_eq a b = false -> key_gt a b = false ->
    a <> b -> compared a b
| IsEqual :
    a = b -> key_lt a b = false -> key_eq a b = true -> key_gt a b = false ->
    compared a b
| IsGreater :
    key_lt b a = true -> key_lt a b = false -> key_eq a b = false ->
    key_gt a b = true -> a <> b -> compared a b.

(** ** [class BinaryTreeNode] *)

Module Node.
Section Defs.

Context {K V : Type} `{KeyOps K} `{Default V}.

(** [K key; V value; BinaryTreeNode *left; BinaryTreeNode *right;] *)
#[warnings="-register-all"]
Inductive BinaryTreeNode : Type :=
  mkNode {
    key   : K;
    value : V;
    left  : option BinaryTreeNode;
    right : option BinaryTreeNode
  }.

(** [BinaryTreeNode(const K &keyin) : key(keyin), left(nullptr), right(nullptr)] *)
Definition new_node (keyin : K) : BinaryTreeNode :=
  mkNode keyin default_value None None.

(** [P] holds of the node behind a pointer, if there is one. *)
Definition opt_all (P : BinaryTreeNode -> Prop) (p : option BinaryTreeNode) : Prop :=
  match p with
  | Some n => P n
  | None => True
  end.

(** Structural induction through the two child pointers. *)
Definition node_induction (P : BinaryTreeNode -> Prop)
  (step : forall k v l r, opt_all P l -> opt_all P r -> P (mkNode k v l r))
  : forall n, P n :=
  fix go (n : BinaryTreeNode) : P n :=
    match n with
    | mkNode k v l r =>
        step k v l r
          (match l return opt_all P l with Some l' => go l' | None => I end)
          (match r return opt_all P r with Some r' => go r' | None => I end)
    end.

(** *** [BinaryTreeNode::contains] *)

(** The method has three guarded [return]s and nothing after them.
    [None] is control running off the end of the function. *)
Fixpoint contains (k : K) (n : BinaryTreeNode) : option bool :=
  match n with
  | mkNode key _ left right =>
      if key_eq k key then Some true
      else if key_lt k key then
        match left with
        | Some l => contains k l
        | None => Some false
        end
      else if key_gt k key then
        match right with
        | Some r => contains k r
        | None => Some false
        end
      else None
  end.

(** *** [BinaryTreeNode::find] *)

Inductive dir : Type := GoLeft | GoRight.

(** Where a [V &] returned by [find] points, relative to the node the
    method was called on. *)
Definition ref := list dir.

(** [find] may attach a fresh leaf on the way, so it returns the node as
    it is after the call together with the reference.

    When the child is missing the source creates it with key [k] and
    recurses into it; that call compares [k == k] and returns the new
    node's [value] (lemma [find_new_node]). *)
Fixpoint find (k : K) (n : BinaryTreeNode) : BinaryTreeNode * ref :=
  match n with
  | mkNode key value left right =>
      if key_eq k key then (n, [])
      else if key_lt k key then
        match left with
        | None => (mkNode key value (Some (new_node k)) right, [GoLeft])
        | Some l =>
            let (l', p) := find k l in
            (mkNode key value (Some l') right, GoLeft :: p)
        end
      else
        match right with
        | None => (mkNode key value left (Some (new_node k)), [GoRight])
        | Some r =>
            let (r', p) := find k r in
            (mkNode key value left (Some r'), GoRight :: p)
        end
  end.

(** Reading and assigning through a reference. *)
Fixpoint read (p : ref) (n : BinaryTreeNode) : option V :=
  match p with
  | [] => Some (value n)
  | GoLeft :: p' =>
      match left n with Some l => read p' l | None => None end
  | GoRight :: p' =>
      match right n with Some r => read p' r | None => None end
  end.

Fixpoint assign (p : ref) (v : V) (n : BinaryTreeNode) : BinaryTreeNode :=
  match n with
  | mkNode key value left right =>
      match p with
      | [] => mkNode key v left right
      | GoLeft :: p' =>
          mkNode key value
            (match left with Some l => Some (assign p' v l) | None => None end)
            right
      | GoRight :: p' =>
          mkNode key value left
            (match right with Some r => Some (assign p' v r) | None => None end)
      end
  end.

(** *** [BinaryTreeNode::erase] *)

(** [while (successor->right) successor = successor->right;] *)
Fixpoint rightmost (n : BinaryTreeNode) : BinaryTreeNode :=
  match n with
  | mkNode _ _ _ right =>
      match right with
      | Some r => rightmost r
      | None => n
      end
  end.

(** The result is the pointer the caller stores back: [temp] after
    [delete this], or [this]. *)
Fixpoint erase (k : K) (n : BinaryTreeNode) : option BinaryTreeNode :=
  match n with
  | mkNode this_key this_value this_left this_right =>
      if key_lt k this_key then
        Some (mkNode this_key this_value
                (match this_left with Some l => erase k l | None => None end)
                this_right)
      else if key_gt k this_key then
        Some (mkNode this_key this_value this_left
                (match this_right with Some r => erase k r | None => None end))
      else
        match this_left, this_right with
        | None, _ => this_right
        | Some _, None => this_left
        | Some l, Some _ =>
            let successor := rightmost l in
            Some (mkNode (key successor) (value successor)
                    (erase (key successor) l) this_right)
        end
  end.

(** *** [BinaryTreeNode::freetree] *)


End Defs.
End Node.

(** ** [class BinaryTreeIterator] *)

Module Iterator.
Section Defs.

Context {K V : Type}.

Local Abbreviation node := (@Node.BinaryTreeNode K V).

(** [BinaryTreeNode<K,V> *current; std::stack<BinaryTreeNode<K,V> *> working_stack;]
    The head of the list is the top of the stack. *)
Record BinaryTreeIterator : Type :=
  mkIter {
    current : option node;
    working_stack : list node
  }.

(** [std::logic_error] *)
Inductive exn : Type := logic_error.

Inductive result (A : Type) : Type :=
| Returned (a : A)
| Thrown (e : exn).

(** A method of the iterator: it starts from the data members and gives
    back its result together with the data members as they are when it
    returns or throws. *)
Definition M (A : Type) : Type :=
  BinaryTreeIterator -> result A * BinaryTreeIterator.

Definition ret {A} (a : A) : M A := fun it => (Returned a, it).

Definition throw {A} (e : exn) : M A := fun it => (Thrown A e, it).

Definition bind {A B} (m : M A) (f : A -> M B) : M B :=
  fun it =>
    match m it with
    | (Returned a, it') => f a it'
    | (Thrown _ e, it') => (Thrown B e, it')
    end.

Definition get_current : M (option node) := fun it => (Returned (current it), it).
Definition set_current (c : option node) : M unit :=
  fun it => (Returned tt, mkIter c (working_stack it)).
Definition get_stack : M (list node) := fun it => (Returned (working_stack it), it).
Definition set_stack (s : list node) : M unit :=
  fun it => (Returned tt, mkIter (current it) s).

Notation "x <- m ;; f" := (bind m (fun x => f))
  (at level 61, m at next level, right associativity).
Notation "m ;;; f" := (bind m (fun _ => f))
  (at level 61, right associativity).

(** [while (current != nullptr) { working_stack.push(current);
    current = current->left; }] entered with [current] pointing to [cur]:
    the stack when the loop exits (with [current == nullptr]). *)
Fixpoint descend (cur : node) (stack : list node) : list node :=
  match cur with
  | Node.mkNode _ _ cur_left _ =>
      match cur_left with
      | Some l => descend l (cur :: stack)
      | None => cur :: stack
      end
  end.

(** [void incr()] *)
Definition incr : M unit :=
  c <- get_current ;;
  s <- get_stack ;;
  match c with
  | Some cur => set_stack (descend cur s) ;;; set_current None
  | None => ret tt
  end ;;;
  s <- get_stack ;;
  match s with
  | top :: rest => set_current (Some top) ;;; set_stack rest
  | [] => set_current None
  end.

(** [void operator++()] *)
Definition increment : M unit := incr.

(** [std::pair<K, V> operator*()] *)
Definition deref : M (K * V) :=
  c <- get_current ;;
  match c with
  | Some cur => ret (Node.key cur, Node.value cur)
  | None => throw logic_error
  end.

(** [bool operator!=(BinaryTreeIterator<K, V> &other)] *)
Definition at_end (it : BinaryTreeIterator) : bool :=
  match current it, working_stack it with
  | None, [] => true
  | _, _ => false
  end.

Definition neq (it other : BinaryTreeIterator) : bool :=
  let curEnd := at_end it in
  let otherEnd := at_end other in
  negb (curEnd && otherEnd).

(** [BinaryTreeIterator(BinaryTreeNode<K, V> *root, bool start)] *)
Definition make (root : option node) (start : bool) : BinaryTreeIterator :=
  let it := mkIter None [] in
  match start, root with
  | true, Some r => snd (incr (mkIter (Some r) (working_stack it)))
  | _, _ => it
  end.

(** The two states of the iterator. *)
Definition exhausted (it : BinaryTreeIterator) : Prop :=
  current it = None /\ working_stack it = [].

Definition positioned (it : BinaryTreeIterator) : Prop :=
  exists n, current it = Some n.

(** How a traversal loop can stand after a number of rounds. *)
Inductive loop_status : Type :=
| Finished                 (* the continuation test came out false *)
| Raised (e : exn)         (* a dereference threw *)
| Running.                 (* the rounds are used up, the loop goes on *)

(** [for (; it != end; ++it) out.push_back( *it );] cut off after [rounds]
    iterations: what has been pushed and how the loop stands. *)
Fixpoint for_each (rounds : nat) (it end_it : BinaryTreeIterator)
  : list (K * V) * loop_status :=
  match rounds with
  | O => ([], if neq it end_it then Running else Finished)
  | S rounds' =>
      if neq it end_it then
        match deref it with
        | (Thrown _ e, _) => ([], Raised e)
        | (Returned kv, it1) =>
            let it2 := snd (increment it1) in
            let (out, st) := for_each rounds' it2 end_it in
            (kv :: out, st)
        end
      else ([], Finished)
  end.

End Defs.
End Iterator.

(** ** [class BinaryTree] *)

Module Tree.
Section Defs.

Context {K V : Type} `{KeyOps K} `{Default V}.

Local Abbreviation node := (@Node.BinaryTreeNode K V).

(** [BinaryTreeNode<K, V> *root;] *)
Record BinaryTree : Type := mkTree { root : option node }.

(** [BinaryTree() : root(nullptr)] *)
Definition empty : BinaryTree := mkTree None.

(** [V &operator[](const K &key)]: the tree after the call and the
    reference it returns, relative to the root. *)
Definition get_or_create (k : K) (t : BinaryTree) : BinaryTree * Node.ref :=
  let r := match root t with
           | None => Node.new_node k
           | Some r => r
           end in
  let (r', p) := Node.find k r in
  (mkTree (Some r'), p).

(** [bool contains(const K &key)] *)
Definition contains (k : K) (t : BinaryTree) : option bool :=
  match root t with
  | None => Some false
  | Some r => Node.contains k r
  end.

(** [void erase(const K &key)] *)
Definition erase (k : K) (t : BinaryTree) : BinaryTree :=
  match root t with
  | Some r => mkTree (Node.erase k r)
  | None => t
  end.

(** [begin()] and [end()] *)
Definition begin_ (t : BinaryTree) : Iterator.BinaryTreeIterator :=
  Iterator.make (root t) true.

Definition end_ (t : BinaryTree) : Iterator.BinaryTreeIterator :=
  Iterator.make (root t) false.

(** Use of a reference returned by [operator[]]. *)
Definition read (p : Node.ref) (t : BinaryTree) : option V :=
  match root t with
  | Some r => Node.read p r
  | None => None
  end.

Definition assign (p : Node.ref) (v : V) (t : BinaryTree) : BinaryTree :=
  match root t with
  | Some r => mkTree (Some (Node.assign p v r))
  | None => t
  end.

(** [tree[k] = v;] *)
Definition store (k : K) (v : V) (t : BinaryTree) : BinaryTree :=
  let (t', p) := get_or_create k t in
  assign p v t'.

(** [for (auto kv : tree) out.push_back(kv);] *)
Definition traverse (rounds : nat) (t : BinaryTree)
  : list (K * V) * Iterator.loop_status :=
  Iterator.for_each rounds (begin_ t) (end_ t).

(** A call of the public interface, and the tree it leaves. *)
Inductive call : Type :=
| CallIndex (k : K)                (* tree[k];      *)
| CallStore (k : K) (v : V)        (* tree[k] = v;  *)
| CallContains (k : K)             (* tree.contains(k); *)
| CallErase (k : K).               (* tree.erase(k);    *)

Definition run (c : call) (t : BinaryTree) : BinaryTree :=
  match c with
  | CallIndex k => fst (get_or_create k t)
  | CallStore k v => store k v t
  | CallContains k => t
  | CallErase k => erase k t
  end.

Definition run_all (cs : list call) (t : BinaryTree) : BinaryTree :=
  fold_left (fun t c => run c t) cs t.


End Defs.
End Tree.

(** ** What a tree holds *)

Section Contents.

Context {K V : Type} `{KeyOps K}.

Local Abbreviation node := (@Node.BinaryTreeNode K V).

(** Left subtree, node, right subtree. *)
Fixpoint inorder (n : node) : list (K * V) :=
  match n with
  | Node.mkNode key value l r =>
      match l with Some l' => inorder l' | None => [] end
      ++ (key, value)
      :: match r with Some r' => inorder r' | None => [] end
  end.

Definition inorder_opt (p : option node) : list (K * V) :=
  match p with
  | Some n => inorder n
  | None => []
  end.

Definition keys (p : option node) : list K := map fst (inorder_opt p).

(** Number of nodes below a pointer. *)
Definition size (p : option node) : nat := length (inorder_opt p).

(** The ordering invariant: every key of the left subtree is [<] the
    node's key, every key of the right subtree is [>] it, at every node. *)
Fixpoint bst (n : node) : Prop :=
  match n with
  | Node.mkNode key _ l r =>
      Forall (fun x => key_lt x key = true) (keys l) /\
      Forall (fun x => key_gt x key = true) (keys r) /\
      match l with Some l' => bst l' | None => True end /\
      match r with Some r' => bst r' | None => True end
  end.

Definition bst_opt (p : option node) : Prop := Node.opt_all bst p.

Definition bst_tree (t : Tree.BinaryTree) : Prop := bst_opt (Tree.root t).

(** The list is strictly ascending under [<]. *)
Definition ascending (ks : list K) : Prop :=
  StronglySorted (fun a b => key_lt a b = true) ks.

(** The pairs of the list whose key is not [k]. *)
Definition drop_key (k : K) (kvs : list (K * V)) : list (K * V) :=
  filter (fun kv => negb (key_eq (fst kv) k)) kvs.

(** A node seen from the root: the nodes above it, each with the side it
    hangs on. *)
Inductive context : Type :=
| Top
| InLeft  (key : K) (value : V) (c : context) (right : option node)
| InRight (key : K) (value : V) (left : option node) (c : context).

Fixpoint plug (c : context) (n : node) : node :=
  match c with
  | Top => n
  | InLeft key value c' r => Node.mkNode key value (Some (plug c' n)) r
  | InRight key value l c' => Node.mkNode key value l (Some (plug c' n))
  end.

(** The same with a pointer in the place of the node. *)
Fixpoint plug_opt (c : context) (p : option node) : option node :=
  match c with
  | Top => p
  | InLeft key value c' r => Some (Node.mkNode key value (plug_opt c' p) r)
  | InRight key value l c' => Some (Node.mkNode key value l (plug_opt c' p))
  end.

(** A node taken from the iterator's stack is still to be visited, and
    after it its right subtree. *)
Definition visit (n : node) : list (K * V) :=
  (Node.key n, Node.value n) :: inorder_opt (Node.right n).

(** What [incr] has before it: the subtree under [current], then the
    nodes on the stack from the top down, each with its right subtree. *)
Definition upcoming (it : @Iterator.BinaryTreeIterator K V) : list (K * V) :=
  inorder_opt (Iterator.current it)
  ++ flat_map visit (Iterator.working_stack it).

(** How the search of [contains] can end, in the words of its
    description: on a node whose key matches, or on a missing child. *)
Inductive search_end : Type := KeyMatch | ChildAbsent.

Inductive search (k : K) : node -> search_end -> Prop :=
| search_match : forall key value l r,
    key_eq k key = true ->
    search k (Node.mkNode key value l r) KeyMatch
| search_no_left : forall key value r,
    key_eq k key = false -> key_lt k key = true ->
    search k (Node.mkNode key value None r) ChildAbsent
| search_left : forall key value l r e,
    key_eq k key = false -> key_lt k key = true ->
    search k l e ->
    search k (Node.mkNode key value (Some l) r) e
| search_no_right : forall key value l,
    key_eq k key = false -> key_lt k key = false -> key_gt k key = true ->
    search k (Node.mkNode key value l None) ChildAbsent
| search_right : forall key value l r e,
    key_eq k key = false -> key_lt k key = false -> key_gt k key = true ->
    search k r e ->
    search k (Node.mkNode key value l (Some r)) e.

End Contents.

(** ** Integer keys and values *)

#[export] Instance Z_KeyOps : KeyOps Z :=
  {| key_lt := Z.ltb; key_eq := Z.eqb; key_gt := Z.gtb |}.

#[export] Instance Z_Default : Default Z := {| default_value := 0%Z |}.

(** A key type whose three comparisons all answer [false]. *)
Definition silent_KeyOps : KeyOps unit :=
  {| key_lt := fun _ _ => false;
     key_eq := fun _ _ => false;
     key_gt := fun _ _ => false |}.

(** [tree[k];] for each key of the list, in order. *)
Definition insert_all (ks : list Z) (t : @Tree.BinaryTree Z Z) : @Tree.BinaryTree Z Z :=
  fold_left (fun t k => fst (Tree.get_or_create k t)) ks t.

(** [tree[k] = v;] for each pair of the list, in order. *)
Definition store_all (kvs : list (Z * Z)) (t : @Tree.BinaryTree Z Z) : @Tree.BinaryTree Z Z :=
  fold_left (fun t kv => Tree.store (fst kv) (snd kv) t) kvs t.

(** Keys 5, 3, 8, 1, 4 inserted into an empty tree, with values ten
    times the key. *)
Definition sample : @Tree.BinaryTree Z Z :=
  store_all [(5, 50); (3, 30); (8, 80); (1, 10); (4, 40)]%Z Tree.empty.

Definition leaf (k v : Z) : @Node.BinaryTreeNode Z Z := Node.mkNode k v None None.

(** The same tree written out. *)
Definition sample_root : @Node.BinaryTreeNode Z Z :=
  Node.mkNode 5%Z 50%Z
    (Some (Node.mkNode 3%Z 30%Z (Some (leaf 1 10)) (Some (leaf 4 40))))
    (Some (leaf 8 80)).

(** * Properties *)

(** ** The comparison operators *)

Section KeyFacts.

Context {K : Type} {ops : KeyOps K} {laws : KeyLaws K}.

Lemma key_eq_refl (a : K) : key_eq a a = true.
Proof. apply key_eq_spec. reflexivity. Qed.

Lemma key_eq_false (a b : K) : a <> b -> key_eq a b = false.
Proof.
  intros Hne. destruct (key_eq a b) eqn:E; [|reflexivity].
  apply key_eq_spec in E. contradiction.
Qed.

Lemma key_lt_neq (a b : K) : key_lt a b = true -> a <> b.
Proof.
  intros Hlt ->. rewrite key_lt_irrefl in Hlt. discriminate.
Qed.

Lemma key_lt_asym (a b : K) : key_lt a b = true -> key_lt b a = false.
Proof.
  intros Hab. destruct (key_lt b a) eqn:E; [|reflexivity].
  pose proof (key_lt_trans _ _ _ Hab E) as Haa.
  rewrite key_lt_irrefl in Haa. discriminate.
Qed.

Lemma compare_keys (a b : K) : compared a b.
Proof.
  destruct (key_lt_total a b) as [Hlt | [Heq | Hgt]].
  - apply IsLess; auto using key_eq_false, key_lt_neq.
    rewrite key_gt_lt. now apply key_lt_asym.
  - subst b. apply IsEqual; auto using key_eq_refl, key_lt_irrefl.
    rewrite key_gt_lt. apply key_lt_irrefl.
  - assert (a <> b) by (intros ->; now apply key_lt_neq in Hgt).
    apply IsGreater; auto using key_eq_false, key_lt_asym.
    now rewrite key_gt_lt.
Qed.

Lemma laws_trichotomy : trichotomy K.
Proof.
  intros a b. destruct (compare_keys a b); auto 6.
Qed.

End KeyFacts.

(** Rewrites the three comparisons of [a] with [b] in each of the cases. *)
Ltac compare_keys a b :=
  let Hlt := fresh "Hlt" in
  let Heq := fresh "Heq" in
  let Hgt := fresh "Hgt" in
  let Hne := fresh "Hne" in
  let Hrev := fresh "Hrev" in
  destruct (compare_keys a b) as
    [Hlt Heq Hgt Hne | Hne Hlt Heq Hgt | Hrev Hlt Heq Hgt Hne];
  try rewrite !Hlt; try rewrite !Heq; try rewrite !Hgt.

#[export] Instance Z_KeyLaws : KeyLaws Z.
Proof.
  constructor; simpl; intros.
  - apply Z.eqb_eq.
  - rewrite Z.gtb_ltb. reflexivity.
  - apply Z.ltb_irrefl.
  - apply Z.ltb_lt. apply Z.ltb_lt in H, H0. lia.
  - rewrite !Z.ltb_lt. lia.
Qed.

(** ** [contains] returns on every path *)

Section ContainsTotal.

Context {K V : Type} {ops : KeyOps K}.

Local Abbreviation node := (@Node.BinaryTreeNode K V).

Lemma search_functional (k : K) (n : node) (e1 e2 : search_end) :
  search k n e1 -> search k n e2 -> e1 = e2.
Proof.
  intros Ha. revert e2.
  induction Ha; intros e2 Hb; inversion Hb; subst; try congruence; auto.
Qed.

(** C9. Under trichotomy of [<], [==], [>], [contains] returns on every
    input: [true] exactly when the search ends on a node whose key
    matches, [false] exactly when it ends on a missing child, and control
    never runs off the end of the function. *)
Theorem contains_total (tri : trichotomy K) (k : K) (n : node) :
  (Node.contains k n = Some true <-> search k n KeyMatch) /\
  (Node.contains k n = Some false <-> search k n ChildAbsent) /\
  Node.contains k n <> None.
Proof.
  assert (Hrun : exists e, search k n e /\
            Node.contains k n = Some (match e with KeyMatch => true | ChildAbsent => false end)).
  { induction n as [key value l r IHl IHr] using Node.node_induction.
    simpl.
    destruct (tri k key) as [(Hlt & Heq & Hgt) | [(Hlt & Heq & Hgt) | (Hlt & Heq & Hgt)]];
      rewrite Heq, ?Hlt, ?Hgt.
    - destruct l as [l|]; simpl in IHl.
      + destruct IHl as (e & Hs & Hc). exists e. split; [|exact Hc].
        now apply search_left.
      + exists ChildAbsent. split; [|reflexivity]. now apply search_no_left.
    - exists KeyMatch. split; [|reflexivity]. now apply search_match.
    - destruct r as [r|]; simpl in IHr.
      + destruct IHr as (e & Hs & Hc). exists e. split; [|exact Hc].
        now apply search_right.
      + exists ChildAbsent. split; [|reflexivity]. now apply search_no_right. }
  destruct Hrun as (e & Hs & Hc). rewrite Hc.
  repeat split; try discriminate.
  - intros Heq. destruct e; [exact Hs | discriminate].
  - intros Hs'. now rewrite (search_functional Hs Hs').
  - intros Heq. destruct e; [discriminate | exact Hs].
  - intros Hs'. now rewrite (search_functional Hs Hs').
Qed.

End ContainsTotal.

(** Without trichotomy the missing [return] is reached: a key type whose
    comparisons all answer [false] falls through at the first node. *)
Example contains_falls_through :
  @Node.contains unit Z silent_KeyOps tt (Node.mkNode tt 0%Z None None) = None.
Proof. reflexivity. Qed.

Lemma contains_total_witness :
  trichotomy Z /\
  (Node.contains 4%Z sample_root = Some true <-> search 4%Z sample_root KeyMatch) /\
  (Node.contains 4%Z sample_root = Some false <-> search 4%Z sample_root ChildAbsent) /\
  Node.contains 4%Z sample_root <> None.
Proof.
  split.
  - exact laws_trichotomy.
  - apply (contains_total laws_trichotomy).
Defined.

(** ** The iterator's methods *)

Section IteratorFacts.

Context {K V : Type}.

Local Abbreviation node := (@Node.BinaryTreeNode K V).
Local Abbreviation iterator := (@Iterator.BinaryTreeIterator K V).

Lemma deref_positioned (it : iterator) (n : node) :
  Iterator.current it = Some n ->
  Iterator.deref it = (Iterator.Returned (Node.key n, Node.value n), it).
Proof.
  intros Hc. unfold Iterator.deref, Iterator.bind, Iterator.get_current.
  rewrite Hc. reflexivity.
Qed.

Lemma deref_null (it : iterator) :
  Iterator.current it = None ->
  Iterator.deref it = (Iterator.Thrown (K * V) Iterator.logic_error, it).
Proof.
  intros Hc. unfold Iterator.deref, Iterator.bind, Iterator.get_current.
  rewrite Hc. reflexivity.
Qed.

(** C8. [operator*] returns the pair made of the current node's key and
    value when [current] is not null, throws [std::logic_error] if and
    only if [current] is null, and in that case leaves the iterator, with
    the nodes it points to, as it was. *)
Theorem deref_spec (it : iterator) :
  Iterator.deref it =
    match Iterator.current it with
    | Some n => (Iterator.Returned (Node.key n, Node.value n), it)
    | None => (Iterator.Thrown (K * V) Iterator.logic_error, it)
    end
  /\ ((exists e, fst (Iterator.deref it) = Iterator.Thrown (K * V) e)
      <-> Iterator.current it = None)
  /\ (forall e, fst (Iterator.deref it) = Iterator.Thrown (K * V) e ->
        snd (Iterator.deref it) = it).
Proof.
  destruct (Iterator.current it) as [n|] eqn:Hc.
  - rewrite (deref_positioned it Hc). repeat split.
    + intros [e He]. discriminate.
    + discriminate.
  - rewrite (deref_null it Hc). repeat split.
    exists Iterator.logic_error. reflexivity.
Qed.

(** What [incr] does, with the monad unfolded. *)
Lemma incr_unfold (it : iterator) :
  Iterator.incr it =
    (Iterator.Returned tt,
     match match Iterator.current it with
           | Some cur => Iterator.descend cur (Iterator.working_stack it)
           | None => Iterator.working_stack it
           end with
     | top :: rest => Iterator.mkIter (Some top) rest
     | [] => Iterator.mkIter None []
     end).
Proof.
  destruct it as [[cur|] stack]; unfold Iterator.incr, Iterator.bind; simpl.
  - destruct (Iterator.descend cur stack); reflexivity.
  - destruct stack; reflexivity.
Qed.

(** C10. On an exhausted iterator ([current] null, stack empty)
    [operator++] returns normally and leaves the iterator exhausted. *)
Theorem increment_exhausted (it : iterator) :
  Iterator.exhausted it ->
  Iterator.increment it = (Iterator.Returned tt, it) /\
  Iterator.exhausted (snd (Iterator.increment it)).
Proof.
  intros Hex. pose proof Hex as [Hc Hs].
  assert (Hrun : Iterator.increment it = (Iterator.Returned tt, it)).
  { unfold Iterator.increment. rewrite incr_unfold.
    destruct it as [c s]. simpl in Hc, Hs. subst c s. reflexivity. }
  split; [exact Hrun|]. rewrite Hrun. exact Hex.
Qed.

(** The loop of [incr] stops with a node on top of the stack that has no
    left child and is the first of the subtree in order. *)
Lemma descend_top (cur : node) (stack : list node) :
  exists top rest more,
    Iterator.descend cur stack = top :: rest /\
    Node.left top = None /\
    inorder cur = (Node.key top, Node.value top) :: more.
Proof.
  revert stack.
  induction cur as [key value l r IHl IHr] using Node.node_induction.
  intros stack. destruct l as [l|]; simpl in IHl |- *.
  - destruct (IHl (Node.mkNode key value (Some l) r :: stack))
      as (top & rest & more & Hd & Hl & Hin).
    exists top, rest, (more ++ (key, value) :: inorder_opt r).
    rewrite Hin. auto.
  - exists (Node.mkNode key value None r), stack, (inorder_opt r). auto.
Qed.

(** An iterator whose current node has no left child is where [incr]
    leaves it. *)
Lemma incr_no_left (it : iterator) (n : node) :
  Iterator.current it = Some n -> Node.left n = None ->
  Iterator.incr it = (Iterator.Returned tt, it).
Proof.
  intros Hc Hl. rewrite incr_unfold.
  destruct it as [c s]. simpl in Hc. subst c.
  destruct n as [key value l r]. simpl in Hl. subst l. reflexivity.
Qed.

(** After one [incr] from a positioned iterator, further [incr]s change
    nothing. *)
Lemma incr_positioned (it : iterator) (n : node) :
  Iterator.current it = Some n ->
  exists top,
    Iterator.current (snd (Iterator.incr it)) = Some top /\
    Node.left top = None /\
    (exists more, inorder n = (Node.key top, Node.value top) :: more) /\
    Iterator.incr (snd (Iterator.incr it))
      = (Iterator.Returned tt, snd (Iterator.incr it)).
Proof.
  intros Hc. rewrite incr_unfold, Hc.
  destruct (descend_top n (Iterator.working_stack it))
    as (top & rest & more & Hd & Hl & Hin).
  rewrite Hd. simpl. exists top. repeat split; eauto.
  now apply incr_no_left with (n := top).
Qed.

(** The loop over an iterator that [incr] leaves in place pushes the
    same pair in every round and does not end. *)
Lemma for_each_stuck (it end_it : iterator) (n : node) (rounds : nat) :
  Iterator.current it = Some n ->
  Iterator.incr it = (Iterator.Returned tt, it) ->
  Iterator.for_each rounds it end_it
    = (repeat (Node.key n, Node.value n) rounds, Iterator.Running).
Proof.
  intros Hc Hfix.
  assert (Hne : Iterator.neq it end_it = true).
  { unfold Iterator.neq, Iterator.at_end. rewrite Hc. reflexivity. }
  induction rounds as [|rounds IH]; simpl; rewrite Hne; [reflexivity|].
  rewrite (deref_positioned it Hc). unfold Iterator.increment.
  rewrite Hfix. simpl. rewrite IH. reflexivity.
Qed.

End IteratorFacts.

Lemma increment_exhausted_witness :
  Iterator.exhausted (@Iterator.mkIter Z Z None []) /\
  Iterator.increment (@Iterator.mkIter Z Z None [])
    = (Iterator.Returned tt, Iterator.mkIter None []) /\
  Iterator.exhausted (snd (Iterator.increment (@Iterator.mkIter Z Z None []))).
Proof.
  assert (Hex : Iterator.exhausted (@Iterator.mkIter Z Z None []))
    by (split; reflexivity).
  split; [exact Hex|]. apply (increment_exhausted Hex).
Defined.

(** ** Nodes and trees *)

Section TreeFacts.

Context {K V : Type} {ops : KeyOps K} {dflt : Default V} {laws : KeyLaws K}.

Local Abbreviation node := (@Node.BinaryTreeNode K V).
Local Abbreviation tree := (@Tree.BinaryTree K V).

(** *** Contents *)

Lemma inorder_node (key : K) (value : V) (l r : option node) :
  inorder (Node.mkNode key value l r)
    = inorder_opt l ++ (key, value) :: inorder_opt r.
Proof. reflexivity. Qed.

Lemma keys_node (key : K) (value : V) (l r : option node) :
  keys (Some (Node.mkNode key value l r)) = keys l ++ key :: keys r.
Proof.
  unfold keys. cbn [inorder_opt]. rewrite inorder_node, map_app. reflexivity.
Qed.

Lemma size_node (key : K) (value : V) (l r : option node) :
  size (Some (Node.mkNode key value l r)) = S (size l + size r).
Proof.
  unfold size. cbn [inorder_opt]. rewrite inorder_node, length_app. simpl. lia.
Qed.

Lemma bst_node (key : K) (value : V) (l r : option node) :
  bst (Node.mkNode key value l r) <->
  Forall (fun x => key_lt x key = true) (keys l) /\
  Forall (fun x => key_gt x key = true) (keys r) /\
  bst_opt l /\ bst_opt r.
Proof. destruct l, r; reflexivity. Qed.

Lemma in_keys_node (x key : K) (value : V) (l r : option node) :
  In x (keys (Some (Node.mkNode key value l r))) <->
  In x (keys l) \/ x = key \/ In x (keys r).
Proof.
  rewrite keys_node, in_app_iff. simpl. intuition.
Qed.

(** *** Erasing a key that is not stored *)

Lemma erase_node_absent (k : K) (n : node) :
  ~ In k (keys (Some n)) -> Node.erase k n = Some n.
Proof.
  induction n as [key value l r IHl IHr] using Node.node_induction.
  rewrite in_keys_node. intros Hnot. simpl.
  compare_keys k key.
  - destruct l as [l|]; [|reflexivity].
    simpl in IHl. rewrite IHl; tauto.
  - tauto.
  - destruct r as [r|]; [|reflexivity].
    simpl in IHr. rewrite IHr; tauto.
Qed.

(** C6. Erasing a key that the tree does not hold returns normally and
    gives back the very same tree, so a traversal pushes the same pairs
    and [contains] answers the same for every key, before and after. *)
Theorem erase_absent (k : K) (t : tree) :
  ~ In k (keys (Tree.root t)) ->
  Tree.erase k t = t /\
  (forall rounds, Tree.traverse rounds (Tree.erase k t) = Tree.traverse rounds t) /\
  (forall k', Tree.contains k' (Tree.erase k t) = Tree.contains k' t).
Proof.
  intros Hnot.
  assert (Hsame : Tree.erase k t = t).
  { destruct t as [[r|]]; unfold Tree.erase; simpl in *; [|reflexivity].
    now rewrite erase_node_absent. }
  rewrite Hsame. auto.
Qed.

(** *** [find] *)

(** The call on a node just created with key [k] returns at its first
    test, with a reference to that node's own [value]. *)
Lemma find_new_node (k : K) :
  Node.find k (Node.new_node k) = (Node.new_node k, []).
Proof.
  unfold Node.new_node. simpl. now rewrite key_eq_refl.
Qed.

(** [find] either leaves the node as it is (the search meets the key) or
    adds exactly one pair, [(k, V())], to the in-order sequence. *)
Lemma find_inorder (k : K) (n : node) :
  (Node.contains k n = Some true /\ fst (Node.find k n) = n) \/
  (Node.contains k n = Some false /\
   exists before after,
     inorder n = before ++ after /\
     inorder (fst (Node.find k n)) = before ++ (k, default_value) :: after).
Proof.
  induction n as [key value l r IHl IHr] using Node.node_induction.
  simpl Node.find. simpl Node.contains. compare_keys k key.
  - destruct l as [l|]; simpl in IHl.
    + destruct (Node.find k l) as [l' p] eqn:Hf. simpl in IHl |- *.
      destruct IHl as [[Hin Hsame] | [Hnot (before & after & Hb & Ha)]].
      * left. subst l'. auto.
      * right. split; [exact Hnot|].
        exists before, (after ++ (key, value) :: inorder_opt r).
        rewrite Hb, Ha, <- !app_assoc. auto.
    + right. split; [reflexivity|].
      exists [], ((key, value) :: inorder_opt r). auto.
  - left. auto.
  - destruct r as [r|]; simpl in IHr.
    + destruct (Node.find k r) as [r' p] eqn:Hf. simpl in IHr |- *.
      destruct IHr as [[Hin Hsame] | [Hnot (before & after & Hb & Ha)]].
      * left. subst r'. auto.
      * right. split; [exact Hnot|].
        exists (inorder_opt l ++ (key, value) :: before), after.
        rewrite Hb, Ha, <- !app_assoc. auto.
    + right. split; [reflexivity|].
      exists (inorder_opt l ++ [(key, value)]), [].
      rewrite <- !app_assoc, app_nil_r. auto.
Qed.

(** *** [contains] *)

Lemma contains_in (k : K) (n : node) :
  Node.contains k n = Some true -> In k (keys (Some n)).
Proof.
  induction n as [key value l r IHl IHr] using Node.node_induction.
  simpl. rewrite in_keys_node. compare_keys k key.
  - destruct l as [l|]; simpl in IHl; [auto | discriminate].
  - auto.
  - destruct r as [r|]; simpl in IHr; [auto | discriminate].
Qed.

Lemma contains_not_in (k : K) (n : node) :
  ~ In k (keys (Some n)) -> Node.contains k n = Some false.
Proof.
  induction n as [key value l r IHl IHr] using Node.node_induction.
  simpl. rewrite in_keys_node. intros Hnot. compare_keys k key.
  - destruct l as [l|]; simpl in IHl; [apply IHl; tauto | reflexivity].
  - tauto.
  - destruct r as [r|]; simpl in IHr; [apply IHr; tauto | reflexivity].
Qed.

Lemma contains_bst (k : K) (n : node) :
  bst n -> In k (keys (Some n)) -> Node.contains k n = Some true.
Proof.
  induction n as [key value l r IHl IHr] using Node.node_induction.
  rewrite bst_node, in_keys_node. intros (Hl & Hr & Hbl & Hbr) Hin.
  rewrite Forall_forall in Hl, Hr. simpl.
  compare_keys k key; [| reflexivity |].
  - destruct Hin as [Hin | [-> | Hin]]; [| congruence |].
    + destruct l as [l|]; simpl in *; [auto | contradiction].
    + apply Hr in Hin. congruence.
  - destruct Hin as [Hin | [-> | Hin]]; [| congruence |].
    + apply Hl in Hin. congruence.
    + destruct r as [r|]; simpl in *; [auto | contradiction].
Qed.

(** On a search tree [contains] decides membership among the keys. *)
Lemma contains_iff (k : K) (n : node) :
  bst n ->
  (Node.contains k n = Some true <-> In k (keys (Some n))) /\
  (Node.contains k n = Some false <-> ~ In k (keys (Some n))).
Proof.
  intros Hb. split; split.
  - apply contains_in.
  - now apply contains_bst.
  - intros Hc Hin. rewrite (@contains_bst k n Hb Hin) in Hc. discriminate.
  - apply contains_not_in.
Qed.

Lemma find_keys (k x : K) (n : node) :
  In x (keys (Some (fst (Node.find k n)))) <-> x = k \/ In x (keys (Some n)).
Proof.
  unfold keys. cbn [inorder_opt].
  destruct (find_inorder k n) as [[Hc Hsame] | [Hc (before & after & Hb & Ha)]].
  - rewrite Hsame. split; [auto|]. intros [-> | Hin]; [|exact Hin].
    now apply contains_in.
  - rewrite Ha, Hb, !map_app, !in_app_iff. simpl. intuition.
Qed.

Lemma find_bst (k : K) (n : node) :
  bst n -> bst (fst (Node.find k n)).
Proof.
  induction n as [key value l r IHl IHr] using Node.node_induction.
  intros Hb. pose proof Hb as (Hl & Hr & Hbl & Hbr)%bst_node.
  simpl Node.find. compare_keys k key.
  - destruct l as [l|]; cbn [Node.opt_all bst_opt] in IHl, Hbl.
    + pose proof (find_keys k) as Hk. specialize (IHl Hbl).
      destruct (Node.find k l) as [l' p] eqn:Hf. cbn [fst] in *.
      apply bst_node. split; [|split; [|split]]; trivial.
      apply Forall_forall. intros x Hx.
      specialize (Hk x l). rewrite Hf in Hk. apply Hk in Hx.
      destruct Hx as [-> | Hx]; [assumption|].
      rewrite Forall_forall in Hl. auto.
    + cbn [fst]. apply bst_node. split; [|split; [|split]]; trivial.
      * repeat constructor. assumption.
      * apply bst_node. repeat split; constructor.
  - exact Hb.
  - destruct r as [r|]; cbn [Node.opt_all bst_opt] in IHr, Hbr.
    + pose proof (find_keys k) as Hk. specialize (IHr Hbr).
      destruct (Node.find k r) as [r' p] eqn:Hf. cbn [fst] in *.
      apply bst_node. split; [|split; [|split]]; trivial.
      apply Forall_forall. intros x Hx.
      specialize (Hk x r). rewrite Hf in Hk. apply Hk in Hx.
      destruct Hx as [-> | Hx]; [assumption|].
      rewrite Forall_forall in Hr. auto.
    + cbn [fst]. apply bst_node. split; [|split; [|split]]; trivial.
      * repeat constructor. assumption.
      * apply bst_node. repeat split; constructor.
Qed.

(** *** Search trees are the trees whose keys come out ascending *)

Lemma ascending_app (l1 l2 : list K) :
  ascending (l1 ++ l2) <->
  ascending l1 /\ ascending l2 /\
  (forall a b, In a l1 -> In b l2 -> key_lt a b = true).
Proof.
  unfold ascending. induction l1 as [|x l1 IH]; simpl.
  - split; [intros Hs | intros (_ & Hs & _); exact Hs].
    repeat split; [constructor | exact Hs | contradiction].
  - split.
    + intros (Hs & Hall)%StronglySorted_inv.
      apply IH in Hs as (H1 & H2 & Hx).
      rewrite Forall_app in Hall. destruct Hall as [Ha1 Ha2].
      rewrite Forall_forall in Ha2.
      repeat split; [constructor; assumption | assumption |].
      intros a b [-> | Ha] Hb; auto.
    + intros (Hs & H2 & Hx). apply StronglySorted_inv in Hs as (H1 & Ha1).
      constructor.
      * apply IH. auto.
      * rewrite Forall_app. split; [assumption|].
        apply Forall_forall. auto.
Qed.

Lemma bst_ascending (p : option node) :
  bst_opt p <-> ascending (keys p).
Proof.
  destruct p as [n|]; [|simpl; split; [constructor | trivial]].
  unfold bst_opt. cbn [Node.opt_all].
  induction n as [key value l r IHl IHr] using Node.node_induction.
  assert (Hl : bst_opt l <-> ascending (keys l)).
  { destruct l; [exact IHl | simpl; split; [constructor | trivial]]. }
  assert (Hr : bst_opt r <-> ascending (keys r)).
  { destruct r; [exact IHr | simpl; split; [constructor | trivial]]. }
  rewrite bst_node, keys_node, ascending_app, Hl, Hr, !Forall_forall.
  clear IHl IHr Hl Hr. unfold ascending. split.
  - intros (Hlt & Hgt & Hal & Har). repeat split; [assumption | |].
    + constructor; [assumption|]. apply Forall_forall.
      intros x Hx. rewrite <- key_gt_lt. auto.
    + intros a b Ha [<- | Hb]; [auto|].
      apply key_lt_trans with (b := key); [auto|].
      rewrite <- key_gt_lt. auto.
  - intros (Hal & (Har & Hgt)%StronglySorted_inv & Hx).
    rewrite Forall_forall in Hgt. repeat split; try assumption.
    + intros x Hin. apply Hx; simpl; auto.
    + intros x Hin. rewrite key_gt_lt. auto.
Qed.

Lemma ascending_filter (f : K -> bool) (ks : list K) :
  ascending ks -> ascending (filter f ks).
Proof.
  unfold ascending. induction 1 as [|x ks Hs IH Hall]; simpl; [constructor|].
  destruct (f x); [|exact IH]. constructor; [exact IH|].
  rewrite Forall_forall in *. intros y (Hy & _)%filter_In. auto.
Qed.

Lemma ascending_NoDup (ks : list K) : ascending ks -> NoDup ks.
Proof.
  unfold ascending. induction 1 as [|x ks Hs IH Hall]; constructor; [|exact IH].
  rewrite Forall_forall in Hall. intros Hin. apply Hall in Hin.
  rewrite key_lt_irrefl in Hin. discriminate.
Qed.

(** *** [erase] *)

Lemma keys_drop_key (k : K) (kvs : list (K * V)) :
  map fst (drop_key k kvs) = filter (fun x => negb (key_eq x k)) (map fst kvs).
Proof.
  unfold drop_key. induction kvs as [|[x v] kvs IH]; simpl; [reflexivity|].
  destruct (key_eq x k); simpl; now rewrite IH.
Qed.

Lemma drop_key_app (k : K) (l1 l2 : list (K * V)) :
  drop_key k (l1 ++ l2) = drop_key k l1 ++ drop_key k l2.
Proof. apply filter_app. Qed.

Lemma drop_key_cons (k x : K) (v : V) (kvs : list (K * V)) :
  drop_key k ((x, v) :: kvs)
    = (if negb (key_eq x k) then [(x, v)] else []) ++ drop_key k kvs.
Proof.
  unfold drop_key. simpl. destruct (key_eq x k); reflexivity.
Qed.

Lemma drop_key_absent (k : K) (kvs : list (K * V)) :
  ~ In k (map fst kvs) -> drop_key k kvs = kvs.
Proof.
  unfold drop_key. induction kvs as [|[x v] kvs IH]; simpl; [reflexivity|].
  intros Hnot. rewrite key_eq_false by (intros ->; tauto). simpl.
  rewrite IH; tauto.
Qed.

Lemma not_in_below (k key : K) (ks : list K) :
  Forall (fun x => key_lt x key = true) ks ->
  key_lt k key = false -> ~ In k ks.
Proof.
  rewrite Forall_forall. intros Hall Hk Hin. apply Hall in Hin. congruence.
Qed.

Lemma not_in_above (k key : K) (ks : list K) :
  Forall (fun x => key_gt x key = true) ks ->
  key_gt k key = false -> ~ In k ks.
Proof.
  rewrite Forall_forall. intros Hall Hk Hin. apply Hall in Hin. congruence.
Qed.

(** The node the [while] loop of [erase] stops on is the last one of
    the subtree in order. *)
Lemma rightmost_last (n : node) :
  exists init,
    inorder n
      = init ++ [(Node.key (Node.rightmost n), Node.value (Node.rightmost n))].
Proof.
  induction n as [key value l r IHl IHr] using Node.node_induction.
  destruct r as [r|]; simpl in IHr.
  - destruct IHr as (init & Hr). rewrite inorder_node. cbn [inorder_opt].
    exists (inorder_opt l ++ (key, value) :: init).
    simpl Node.rightmost. rewrite Hr, <- app_assoc. reflexivity.
  - exists (inorder_opt l). reflexivity.
Qed.

Lemma rightmost_no_right (n : node) : Node.right (Node.rightmost n) = None.
Proof.
  induction n as [key value l r IHl IHr] using Node.node_induction.
  destruct r as [r|]; simpl in *; auto.
Qed.

(** In a search tree every other key of the subtree is below it. *)
Lemma rightmost_greatest (n : node) :
  bst n ->
  exists init,
    inorder n
      = init ++ [(Node.key (Node.rightmost n), Node.value (Node.rightmost n))] /\
    Forall (fun x => key_lt x (Node.key (Node.rightmost n)) = true) (map fst init).
Proof.
  intros Hb. destruct (rightmost_last n) as (init & Hin).
  exists init. split; [exact Hin|].
  apply (bst_ascending (Some n)) in Hb. unfold keys in Hb. cbn [inorder_opt] in Hb.
  rewrite Hin, map_app in Hb. apply ascending_app in Hb as (_ & _ & Hx).
  apply Forall_forall. intros x Hxin. apply Hx; simpl; auto.
Qed.

(** What is left below the pointer [erase] returns: the pairs that were
    there, in the same order, without the one whose key is [k]. *)
Lemma erase_inorder (k : K) (n : node) :
  bst n -> inorder_opt (Node.erase k n) = drop_key k (inorder n).
Proof.
  revert k.
  induction n as [key value l r IHl IHr] using Node.node_induction.
  intros k Hb. pose proof Hb as (Hl & Hr & Hbl & Hbr)%bst_node.
  rewrite inorder_node, drop_key_app. simpl Node.erase.
  rewrite drop_key_cons.
  compare_keys k key.
  - rewrite (key_eq_false (not_eq_sym Hne)). cbn [negb inorder_opt].
    rewrite inorder_node.
    rewrite (drop_key_absent k (inorder_opt r)).
    2:{ apply not_in_above with (key := key); assumption. }
    f_equal. destruct l as [l|]; [|reflexivity].
    apply IHl. exact Hbl.
  - subst key. rewrite key_eq_refl. cbn [negb app].
    rewrite (drop_key_absent k (inorder_opt l)).
    2:{ apply not_in_below with (key := k); assumption. }
    rewrite (drop_key_absent k (inorder_opt r)).
    2:{ apply not_in_above with (key := k); assumption. }
    destruct l as [l|]; [|reflexivity].
    destruct r as [r|]; [|cbn [inorder_opt]; now rewrite app_nil_r].
    cbn [inorder_opt]. rewrite inorder_node.
    simpl in IHl, Hbl. rewrite (IHl _ Hbl).
    destruct (@rightmost_greatest l Hbl) as (init & Hin & Hall).
    rewrite Hin at 1. rewrite drop_key_app, drop_key_cons, key_eq_refl.
    cbn [negb drop_key filter app].
    rewrite drop_key_absent.
    2:{ intros Hx. rewrite Forall_forall in Hall. apply Hall in Hx.
        rewrite key_lt_irrefl in Hx. discriminate. }
    rewrite app_nil_r. cbn [inorder_opt]. rewrite Hin, <- app_assoc. reflexivity.
  - rewrite (key_eq_false (not_eq_sym Hne)). cbn [negb inorder_opt].
    rewrite inorder_node.
    rewrite (drop_key_absent k (inorder_opt l)).
    2:{ apply not_in_below with (key := key); assumption. }
    f_equal. simpl. f_equal. destruct r as [r|]; [|reflexivity].
    apply IHr. exact Hbr.
Qed.

Lemma erase_keys (k : K) (n : node) :
  bst n ->
  keys (Node.erase k n) = filter (fun x => negb (key_eq x k)) (keys (Some n)).
Proof.
  intros Hb. unfold keys. rewrite (@erase_inorder k n Hb). apply keys_drop_key.
Qed.

Lemma erase_not_in (k : K) (n : node) :
  bst n -> ~ In k (keys (Node.erase k n)).
Proof.
  intros Hb. rewrite (@erase_keys k n Hb), filter_In, key_eq_refl.
  intros [_ Hf]. discriminate.
Qed.

Lemma erase_bst (k : K) (n : node) :
  bst n -> bst_opt (Node.erase k n).
Proof.
  intros Hb. apply bst_ascending. rewrite (@erase_keys k n Hb).
  apply ascending_filter. now apply (bst_ascending (Some n)).
Qed.

(** *** Assignment through a reference *)

Lemma assign_keys (p : Node.ref) (v : V) (n : node) :
  keys (Some (Node.assign p v n)) = keys (Some n).
Proof.
  revert p.
  induction n as [key value l r IHl IHr] using Node.node_induction.
  intros [|[|] p]; simpl Node.assign; rewrite !keys_node; try reflexivity.
  - destruct l as [l|]; [|reflexivity]. simpl in IHl. now rewrite IHl.
  - destruct r as [r|]; [|reflexivity]. simpl in IHr. now rewrite IHr.
Qed.

Lemma assign_bst (p : Node.ref) (v : V) (n : node) :
  bst n -> bst (Node.assign p v n).
Proof.
  intros Hb. apply (bst_ascending (Some (Node.assign p v n))).
  rewrite assign_keys. now apply (bst_ascending (Some n)).
Qed.

Lemma assign_contains (k : K) (p : Node.ref) (v : V) (n : node) :
  Node.contains k (Node.assign p v n) = Node.contains k n.
Proof.
  revert p.
  induction n as [key value l r IHl IHr] using Node.node_induction.
  intros [|[|] p]; simpl; try reflexivity.
  - destruct l as [l|]; [|reflexivity]. simpl in IHl. now rewrite IHl.
  - destruct r as [r|]; [|reflexivity]. simpl in IHr. now rewrite IHr.
Qed.

(** *** The public operations keep the invariant *)

Lemma get_or_create_bst (k : K) (t : tree) :
  bst_tree t -> bst_tree (fst (Tree.get_or_create k t)).
Proof.
  unfold bst_tree, Tree.get_or_create. intros Hb.
  destruct t as [[r|]]; simpl in *.
  - pose proof (@find_bst k r Hb) as Hf.
    destruct (Node.find k r) as [r' p]. exact Hf.
  - rewrite key_eq_refl. simpl. repeat split; constructor.
Qed.

Lemma store_bst (k : K) (v : V) (t : tree) :
  bst_tree t -> bst_tree (Tree.store k v t).
Proof.
  intros Hb. apply (@get_or_create_bst k t) in Hb.
  unfold Tree.store. destruct (Tree.get_or_create k t) as [t' p].
  simpl in Hb. unfold bst_tree, Tree.assign in *.
  destruct (Tree.root t') as [r|] eqn:Hr; simpl.
  - now apply assign_bst.
  - now rewrite Hr.
Qed.

Lemma tree_erase_bst (k : K) (t : tree) :
  bst_tree t -> bst_tree (Tree.erase k t).
Proof.
  unfold bst_tree, Tree.erase. intros Hb.
  destruct (Tree.root t) as [r|] eqn:Hr; simpl.
  - now apply erase_bst.
  - now rewrite Hr.
Qed.

Lemma run_bst (c : Tree.call) (t : tree) :
  bst_tree t -> bst_tree (Tree.run c t).
Proof.
  destruct c as [k | k v | k | k]; intros Hb; simpl.
  - now apply get_or_create_bst.
  - now apply store_bst.
  - exact Hb.
  - now apply tree_erase_bst.
Qed.

Lemma run_all_bst (cs : list Tree.call) (t : tree) :
  bst_tree t -> bst_tree (Tree.run_all cs t).
Proof.
  unfold Tree.run_all. revert t.
  induction cs as [|c cs IH]; simpl; auto using run_bst.
Qed.

(** Whatever calls built the tree, its keys in order are strictly
    ascending, each once. *)
Lemma contents_ascending (cs : list Tree.call) :
  let t := Tree.run_all cs (@Tree.empty K V) in
  ascending (keys (Tree.root t)) /\ NoDup (keys (Tree.root t)).
Proof.
  intros t.
  assert (Hasc : ascending (keys (Tree.root t))).
  { apply bst_ascending. apply (run_all_bst cs). exact I. }
  split; [exact Hasc | now apply ascending_NoDup].
Qed.

(** C4. The ordering invariant holds of the empty tree and every call of
    the public interface ([tree[k]], [tree[k] = v], [contains], [erase])
    keeps it; so does [erase] at a node with two children that holds the
    key. *)
Theorem bst_invariant :
  bst_tree (@Tree.empty K V) /\
  (forall (c : Tree.call) (t : tree), bst_tree t -> bst_tree (Tree.run c t)) /\
  (forall cs : list Tree.call, bst_tree (Tree.run_all cs (@Tree.empty K V))) /\
  (forall key value (l r : node),
     bst (Node.mkNode key value (Some l) (Some r)) ->
     bst_opt (Node.erase key (Node.mkNode key value (Some l) (Some r)))).
Proof.
  split; [exact I|]. split; [exact run_bst|]. split.
  - intros cs. apply run_all_bst. exact I.
  - intros key value l r Hb. now apply erase_bst.
Qed.

(** *** Traversal *)

Lemma traverse_empty (t : tree) (rounds : nat) :
  Tree.root t = None -> Tree.traverse rounds t = ([], Iterator.Finished).
Proof.
  intros Hr. unfold Tree.traverse, Tree.begin_, Tree.end_. rewrite Hr.
  destruct rounds; reflexivity.
Qed.

(** On a tree that is not empty the loop pushes the first pair in order,
    again and again, and does not end. *)
Lemma traverse_stuck (t : tree) (r : node) :
  Tree.root t = Some r ->
  exists kv more,
    inorder r = kv :: more /\
    forall rounds,
      Tree.traverse rounds t = (repeat kv rounds, Iterator.Running).
Proof.
  intros Hr. unfold Tree.traverse, Tree.begin_, Tree.end_. rewrite Hr.
  unfold Iterator.make. cbn [Iterator.working_stack].
  destruct (@incr_positioned K V (Iterator.mkIter (Some r) []) r eq_refl)
    as (top & Hc & Hl & (more & Hin) & Hfix).
  exists (Node.key top, Node.value top), more. split; [exact Hin|].
  intros rounds. now apply for_each_stuck.
Qed.

(** Whatever the loop pushes is a pair stored in the tree. *)
Lemma traverse_stored (t : tree) (rounds : nat) (kv : K * V) :
  In kv (fst (Tree.traverse rounds t)) -> In kv (inorder_opt (Tree.root t)).
Proof.
  destruct (Tree.root t) as [r|] eqn:Hr.
  - destruct (traverse_stuck t Hr) as (kv' & more & Hin & Hrun).
    rewrite Hrun. cbn [fst inorder_opt]. intros Hk%repeat_spec.
    subst kv'. rewrite Hin. now left.
  - now rewrite traverse_empty.
Qed.

(** *** Erasing a stored key *)

Lemma tree_erase_not_in (k : K) (t : tree) :
  bst_tree t -> ~ In k (keys (Tree.root (Tree.erase k t))).
Proof.
  unfold bst_tree, Tree.erase. intros Hb.
  destruct (Tree.root t) as [r|] eqn:Hr; simpl.
  - now apply erase_not_in.
  - rewrite Hr. simpl. tauto.
Qed.

Lemma tree_contains_not_in (k : K) (t : tree) :
  ~ In k (keys (Tree.root t)) -> Tree.contains k t = Some false.
Proof.
  unfold Tree.contains. destruct (Tree.root t) as [r|]; [|reflexivity].
  apply contains_not_in.
Qed.

(** C5. After [erase(k)] on a search tree, [contains(k)] returns
    [false], [k] is not among the keys the tree holds, no traversal
    pushes a pair with key [k], and a second [erase(k)] gives the same
    tree as the first. *)
Theorem erase_removes (k : K) (t : tree) :
  bst_tree t ->
  Tree.contains k (Tree.erase k t) = Some false /\
  ~ In k (keys (Tree.root (Tree.erase k t))) /\
  (forall rounds,
     ~ In k (map fst (fst (Tree.traverse rounds (Tree.erase k t))))) /\
  Tree.erase k (Tree.erase k t) = Tree.erase k t.
Proof.
  intros Hb. pose proof (@tree_erase_not_in k t Hb) as Hnot.
  split; [|split; [|split]].
  - now apply tree_contains_not_in.
  - exact Hnot.
  - intros rounds (kv & Hk & Hin)%in_map_iff.
    apply traverse_stored in Hin. apply Hnot.
    unfold keys. apply in_map_iff. eauto.
  - destruct (Tree.erase k t) as [[r|]] eqn:He; unfold Tree.erase; simpl in *.
    + now rewrite erase_node_absent.
    + reflexivity.
Qed.

(** *** Erasing at a node with two children *)

Lemma plug_key_in (c : context) (n : node) :
  In (Node.key n) (keys (Some (plug c n))).
Proof.
  induction c as [|ck cv c IH cr | ck cv cl c IH]; simpl plug.
  - destruct n as [key value l r]. apply in_keys_node. auto.
  - apply in_keys_node. auto.
  - apply in_keys_node. auto.
Qed.

Lemma plug_bst (c : context) (n : node) : bst (plug c n) -> bst n.
Proof.
  induction c as [|ck cv c IH cr | ck cv cl c IH]; simpl plug; auto.
  - intros (_ & _ & Hb & _)%bst_node. auto.
  - intros (_ & _ & _ & Hb)%bst_node. auto.
Qed.

(** [erase] walks down to a node that holds the key and puts what the
    call on that node returns in its place. *)
Lemma erase_plug (c : context) (n n' : node) :
  bst (plug c n) ->
  Node.erase (Node.key n) n = Some n' ->
  Node.erase (Node.key n) (plug c n) = Some (plug c n').
Proof.
  intros Hb Hn.
  induction c as [|ck cv c IH cr | ck cv cl c IH]; simpl plug in *.
  - exact Hn.
  - apply bst_node in Hb as (Hl & _ & Hbl & _).
    rewrite Forall_forall in Hl. specialize (Hl _ (plug_key_in c n)).
    simpl. rewrite Hl, (IH Hbl). reflexivity.
  - apply bst_node in Hb as (_ & Hr & _ & Hbr).
    rewrite Forall_forall in Hr. specialize (Hr _ (plug_key_in c n)).
    simpl. rewrite Hr.
    rewrite key_gt_lt in Hr. rewrite (key_lt_asym _ _ Hr), (IH Hbr).
    reflexivity.
Qed.

(** C3. Let [k] be stored at a node with two children, anywhere in a
    search tree.  [erase(k)] leaves that node where it is, overwrites its
    key and value with those of the node found by going right as far as
    possible in its left subtree (the greatest key there), and replaces
    its left subtree by the result of erasing that key from it; the keys
    of the resulting tree are the previous ones without [k]. *)
Theorem erase_two_children
    (c : context) (k : K) (v : V) (l r : node) :
  let n := Node.mkNode k v (Some l) (Some r) in
  let p := Node.rightmost l in
  bst (plug c n) ->
  Node.erase k (plug c n)
    = Some (plug c (Node.mkNode (Node.key p) (Node.value p)
                      (Node.erase (Node.key p) l) (Some r))) /\
  Node.right p = None /\
  (exists init,
     inorder l = init ++ [(Node.key p, Node.value p)] /\
     Forall (fun x => key_lt x (Node.key p) = true) (map fst init)) /\
  keys (Node.erase k (plug c n))
    = filter (fun x => negb (key_eq x k)) (keys (Some (plug c n))) /\
  (forall x, In x (keys (Node.erase k (plug c n)))
             <-> In x (keys (Some (plug c n))) /\ x <> k).
Proof.
  intros n p Hb.
  pose proof (plug_bst c n Hb) as Hn.
  pose proof Hn as (_ & _ & Hbl & _)%bst_node. simpl in Hbl.
  assert (Hhere : Node.erase (Node.key n) n
            = Some (Node.mkNode (Node.key p) (Node.value p)
                      (Node.erase (Node.key p) l) (Some r))).
  { simpl. rewrite key_gt_lt, key_lt_irrefl. reflexivity. }
  pose proof (@erase_keys k (plug c n) Hb) as Hkeys.
  split; [|split; [|split; [|split]]].
  - exact (erase_plug c n Hb Hhere).
  - apply rightmost_no_right.
  - exact (@rightmost_greatest l Hbl).
  - exact Hkeys.
  - intros x. rewrite Hkeys, filter_In, negb_true_iff. split.
    + intros [Hin Hne]. split; [exact Hin|]. intros ->.
      rewrite key_eq_refl in Hne. discriminate.
    + intros [Hin Hne]. split; [exact Hin|]. now apply key_eq_false.
Qed.

(** *** The reference returned by [find] *)

(** The reference points to the [value] of the one pair with key [k], and
    assigning through it replaces that value and nothing else. *)
Lemma find_location (k : K) (n : node) :
  exists before v0 after,
    inorder (fst (Node.find k n)) = before ++ (k, v0) :: after /\
    Node.read (snd (Node.find k n)) (fst (Node.find k n)) = Some v0 /\
    forall v,
      inorder (Node.assign (snd (Node.find k n)) v (fst (Node.find k n)))
        = before ++ (k, v) :: after.
Proof.
  induction n as [key value l r IHl IHr] using Node.node_induction.
  simpl Node.find. compare_keys k key.
  - destruct l as [l|]; simpl in IHl.
    + destruct (Node.find k l) as [l' p] eqn:Hf. cbn [fst snd] in *.
      destruct IHl as (before & v0 & after & Hin & Hread & Hset).
      exists before, v0, (after ++ (key, value) :: inorder_opt r).
      split; [|split].
      * rewrite inorder_node. cbn [inorder_opt].
        rewrite Hin, <- app_assoc. reflexivity.
      * exact Hread.
      * intros v. simpl Node.assign. rewrite inorder_node. cbn [inorder_opt].
        rewrite Hset, <- app_assoc. reflexivity.
    + exists [], default_value, ((key, value) :: inorder_opt r).
      cbn [fst snd]. auto.
  - subst key. exists (inorder_opt l), value, (inorder_opt r).
    cbn [fst snd]. auto.
  - destruct r as [r|]; simpl in IHr.
    + destruct (Node.find k r) as [r' p] eqn:Hf. cbn [fst snd] in *.
      destruct IHr as (before & v0 & after & Hin & Hread & Hset).
      exists (inorder_opt l ++ (key, value) :: before), v0, after.
      split; [|split].
      * rewrite inorder_node. cbn [inorder_opt].
        rewrite Hin, <- app_assoc. reflexivity.
      * exact Hread.
      * intros v. simpl Node.assign. rewrite inorder_node. cbn [inorder_opt].
        rewrite Hset, <- app_assoc. reflexivity.
    + exists (inorder_opt l ++ [(key, value)]), default_value, [].
      cbn [fst snd]. rewrite inorder_node. cbn [inorder_opt Node.new_node].
      split; [|split].
      * rewrite <- app_assoc. reflexivity.
      * reflexivity.
      * intros v. simpl. rewrite <- app_assoc. reflexivity.
Qed.

Lemma find_contains (k : K) (n : node) :
  Node.contains k (fst (Node.find k n)) = Some true.
Proof.
  induction n as [key value l r IHl IHr] using Node.node_induction.
  simpl Node.find. compare_keys k key.
  - destruct l as [l|]; simpl in IHl.
    + destruct (Node.find k l) as [l' p]. simpl in *.
      now rewrite Heq, Hlt.
    + simpl. now rewrite Heq, Hlt, key_eq_refl.
  - simpl. now rewrite Heq.
  - destruct r as [r|]; simpl in IHr.
    + destruct (Node.find k r) as [r' p]. simpl in *.
      now rewrite Heq, Hlt, Hgt.
    + simpl. now rewrite Heq, Hlt, Hgt, key_eq_refl.
Qed.

(** What [tree[k] = v;] achieves below the iterator: the key is found by
    [contains], the pair [(k, v)] is in the tree, a lookup of an absent
    key adds one node, and a lookup of a stored key changes nothing. *)
Lemma store_spec (k : K) (v : V) (t : tree) :
  Tree.contains k (Tree.store k v t) = Some true /\
  In (k, v) (inorder_opt (Tree.root (Tree.store k v t))) /\
  (Tree.contains k t = Some false ->
   size (Tree.root (fst (Tree.get_or_create k t))) = S (size (Tree.root t))) /\
  (Tree.contains k t = Some true -> fst (Tree.get_or_create k t) = t).
Proof.
  unfold Tree.store, Tree.get_or_create, Tree.contains, Tree.assign.
  destruct t as [[r|]]; cbn [Tree.root].
  - pose proof (find_location k r) as (before & v0 & after & Hin & _ & Hset).
    pose proof (find_contains k r) as Hc.
    pose proof (find_inorder k r) as Hcases.
    destruct (Node.find k r) as [r' p]. cbn [fst snd Tree.root] in *.
    split; [|split; [|split]].
    + now rewrite assign_contains.
    + cbn [inorder_opt]. rewrite Hset. apply in_elt.
    + intros Habs.
      destruct Hcases as [[Hc' _] | [_ (b & a & Hb & Ha)]]; [congruence|].
      unfold size. cbn [inorder_opt]. rewrite Ha, Hb, !length_app. simpl. lia.
    + intros Hpres.
      destruct Hcases as [[_ Hsame] | [Hc' _]]; [|congruence].
      now subst r'.
  - rewrite find_new_node. cbn [fst snd Tree.root].
    split; [|split; [|split]].
    + simpl. now rewrite key_eq_refl.
    + simpl. auto.
    + reflexivity.
    + discriminate.
Qed.

End TreeFacts.

Lemma erase_absent_witness :
  ~ In 7%Z (keys (Tree.root sample)) /\
  Tree.erase 7%Z sample = sample /\
  (forall rounds,
     Tree.traverse rounds (Tree.erase 7%Z sample) = Tree.traverse rounds sample) /\
  (forall k', Tree.contains k' (Tree.erase 7%Z sample) = Tree.contains k' sample).
Proof.
  assert (Hnot : ~ In 7%Z (keys (Tree.root sample))).
  { vm_compute. intuition discriminate. }
  split; [exact Hnot|]. exact (erase_absent (laws := Z_KeyLaws) 7%Z sample Hnot).
Defined.

(** ** The operations on integer keys *)

(** Proves [bst] of a tree written out. *)
Ltac prove_bst := cbv; repeat split; repeat constructor.

Lemma sample_is_sample_root : sample = Tree.mkTree (Some sample_root).
Proof. reflexivity. Qed.

Lemma sample_bst : bst sample_root.
Proof. prove_bst. Qed.

Lemma erase_two_children_witness :
  bst (plug Top sample_root) /\
  Node.erase 5%Z (plug Top sample_root)
    = Some (Node.mkNode 4%Z 40%Z
              (Some (Node.mkNode 3%Z 30%Z (Some (leaf 1 10)) None))
              (Some (leaf 8 80))).
Proof.
  assert (Hb : bst (plug Top sample_root)) by prove_bst.
  split; [exact Hb|].
  exact (proj1 (erase_two_children (laws := Z_KeyLaws) Top 5%Z 50%Z
                  (Node.mkNode 3%Z 30%Z (Some (leaf 1 10)) (Some (leaf 4 40)))
                  (leaf 8 80) Hb)).
Defined.

Lemma bst_invariant_witness :
  KeyLaws Z /\
  bst_tree (Tree.run_all
              [Tree.CallStore 5 50; Tree.CallStore 3 30; Tree.CallIndex 8;
               Tree.CallContains 3; Tree.CallErase 5]%Z
              (@Tree.empty Z Z)).
Proof.
  split; [exact Z_KeyLaws|].
  exact (proj1 (proj2 (proj2 (bst_invariant (laws := Z_KeyLaws)))) _).
Defined.

Lemma erase_removes_witness :
  bst_tree sample /\
  Tree.contains 5%Z (Tree.erase 5%Z sample) = Some false /\
  ~ In 5%Z (keys (Tree.root (Tree.erase 5%Z sample))) /\
  (forall rounds,
     ~ In 5%Z (map fst (fst (Tree.traverse rounds (Tree.erase 5%Z sample))))) /\
  Tree.erase 5%Z (Tree.erase 5%Z sample) = Tree.erase 5%Z sample.
Proof.
  assert (Hb : bst_tree sample) by prove_bst.
  split; [exact Hb|]. exact (erase_removes (laws := Z_KeyLaws) 5%Z sample Hb).
Defined.

(** The scenario of the description, below the iterator: keys 5, 3, 8, 1,
    4 are held in ascending order, and erasing 5 leaves 1, 3, 4, 8. *)
Example sample_keys :
  keys (Tree.root sample) = [1; 3; 4; 5; 8]%Z /\
  keys (Tree.root (Tree.erase 5%Z sample)) = [1; 3; 4; 8]%Z /\
  Tree.contains 5%Z (Tree.erase 5%Z sample) = Some false /\
  Tree.contains 42%Z (@Tree.empty Z Z) = Some false /\
  Tree.erase 42%Z (@Tree.empty Z Z) = Tree.empty.
Proof. repeat split. Qed.

(** C1. Keys 5, 3, 8, 1, 4 are inserted with [operator[]].  The tree
    holds 1, 3, 4, 5, 8, but the loop from [begin()] to [end()] pushes the
    pair of key 1 in every round and never comes to its end: after any
    number of rounds it is still running. *)
Theorem traversal_repeats_first_key :
  let t := insert_all [5; 3; 8; 1; 4]%Z Tree.empty in
  keys (Tree.root t) = [1; 3; 4; 5; 8]%Z /\
  forall rounds,
    Tree.traverse rounds t = (repeat (1, 0)%Z rounds, Iterator.Running).
Proof.
  intros t. split; [reflexivity|].
  destruct (Tree.root t) as [r|] eqn:Hr; [|discriminate].
  destruct (traverse_stuck t Hr) as (kv & more & Hin & Hrun).
  assert (Hkv : kv = (1, 0)%Z).
  { injection Hr as <-. vm_compute in Hin. now injection Hin as <-. }
  subst kv. exact Hrun.
Qed.

(** C2. Keys 1 and 2 are inserted; the node of key 1 has the node of
    key 2 as right child.  At [begin()] the iterator is on key 1.
    [operator*] returns its pair and leaves [current] on that node, not on
    its right child, and [operator++] then ends on the same node again:
    the iterator after visit and advance is the iterator before. *)
Theorem increment_stays_on_visited_node :
  let t := insert_all [1; 2]%Z Tree.empty in
  let it := Tree.begin_ t in
  let visited := Node.mkNode 1%Z 0%Z None (Some (leaf 2 0)) in
  Iterator.current it = Some visited /\
  Iterator.deref it = (Iterator.Returned (1, 0)%Z, it) /\
  Iterator.current (snd (Iterator.deref it)) <> Node.right visited /\
  Iterator.increment (snd (Iterator.deref it)) = (Iterator.Returned tt, it) /\
  Iterator.current (snd (Iterator.increment (snd (Iterator.deref it))))
    = Some visited.
Proof.
  repeat split. discriminate.
Qed.

(** C7. After [tree[1] = 10; tree[2] = 20;], [contains(2)] returns [true]
    and the tree holds the pair (2, 20), but no round of the traversal
    pushes it. *)
Theorem stored_pair_never_traversed :
  let t := store_all [(1, 10); (2, 20)]%Z Tree.empty in
  Tree.contains 2%Z t = Some true /\
  In (2, 20)%Z (inorder_opt (Tree.root t)) /\
  forall rounds, ~ In (2, 20)%Z (fst (Tree.traverse rounds t)).
Proof.
  intros t. split; [reflexivity|]. split; [simpl; auto|].
  destruct (Tree.root t) as [r|] eqn:Hr; [|discriminate].
  destruct (traverse_stuck t Hr) as (kv & more & Hin & Hrun).
  assert (Hkv : kv = (1, 10)%Z).
  { injection Hr as <-. vm_compute in Hin. now injection Hin as <-. }
  subst kv. intros rounds. rewrite Hrun. cbn [fst].
  intros Hk%repeat_spec. discriminate.
Qed.

(** * Further properties of the three classes *)

(** ** The constructor, [incr] and [operator!=] *)

Section IteratorOrder.

Context {K V : Type}.

Local Abbreviation node := (@Node.BinaryTreeNode K V).
Local Abbreviation iterator := (@Iterator.BinaryTreeIterator K V).
Local Abbreviation tree := (@Tree.BinaryTree K V).

Lemma visit_node (key : K) (value : V) (l r : option node) :
  inorder (Node.mkNode key value l r)
    = inorder_opt l ++ visit (Node.mkNode key value l r).
Proof. reflexivity. Qed.

(** The loop of [incr] loses nothing: the subtree it walks down is on the
    stack afterwards, in order. *)
Lemma descend_upcoming (cur : node) (stack : list node) :
  flat_map visit (Iterator.descend cur stack)
    = inorder cur ++ flat_map visit stack.
Proof.
  revert stack.
  induction cur as [key value l r IHl IHr] using Node.node_induction.
  intros stack. rewrite visit_node. destruct l as [l|]; simpl in IHl.
  - simpl Iterator.descend. rewrite IHl. cbn [flat_map inorder_opt].
    now rewrite <- app_assoc.
  - reflexivity.
Qed.

(** X1. [incr] returns normally and makes the first of the pairs it has
    before it the current one: what was before it is the new current
    node, its right subtree, and the stack that is left; and it ends with
    [current] null exactly when nothing was before it, with the stack
    empty. *)
Theorem incr_in_order (it : iterator) :
  fst (Iterator.incr it) = Iterator.Returned tt /\
  match Iterator.current (snd (Iterator.incr it)) with
  | Some top =>
      upcoming it
        = visit top
          ++ flat_map visit (Iterator.working_stack (snd (Iterator.incr it)))
  | None =>
      upcoming it = [] /\ Iterator.working_stack (snd (Iterator.incr it)) = []
  end.
Proof.
  rewrite incr_unfold. split; [reflexivity|].
  unfold upcoming. destruct it as [[cur|] stack]; cbn [Iterator.current
    Iterator.working_stack inorder_opt snd].
  - rewrite <- descend_upcoming.
    destruct (descend_top cur stack) as (top & rest & more & Hd & _ & _).
    rewrite Hd. reflexivity.
  - destruct stack as [|top rest]; simpl; auto.
Qed.

(** X2. On a tree without nodes [begin() != end()] is false, and the
    loop from [begin()] to [end()] ends at once with nothing pushed. *)
Theorem traverse_empty_finishes (t : tree) :
  Tree.root t = None ->
  Iterator.neq (Tree.begin_ t) (Tree.end_ t) = false /\
  forall rounds, Tree.traverse rounds t = ([], Iterator.Finished).
Proof.
  intros Hr. split.
  - unfold Tree.begin_, Tree.end_. now rewrite Hr.
  - intros rounds. now apply traverse_empty.
Qed.

(** X3. On a tree with at least one node the loop from [begin()] to
    [end()] does not end: in every round it pushes the pair that is first
    in order, and after any number of rounds it is still running. *)
Theorem traverse_nonempty_never_ends (t : tree) (r : node) :
  Tree.root t = Some r ->
  exists kv more,
    inorder r = kv :: more /\
    forall rounds,
      Tree.traverse rounds t = (repeat kv rounds, Iterator.Running) /\
      snd (Tree.traverse rounds t) <> Iterator.Finished.
Proof.
  intros Hr. destruct (traverse_stuck t Hr) as (kv & more & Hin & Hrun).
  exists kv, more. split; [exact Hin|].
  intros rounds. rewrite Hrun. split; [reflexivity | discriminate].
Qed.

(** X4. [end()] is exhausted for every tree, and [begin() != end()] is
    true exactly when the tree has a root. *)
Theorem begin_neq_end_iff (t : tree) :
  Iterator.exhausted (Tree.end_ t) /\
  (Iterator.neq (Tree.begin_ t) (Tree.end_ t) = true <-> Tree.root t <> None).
Proof.
  split.
  - unfold Tree.end_, Iterator.make. destruct (Tree.root t); split; reflexivity.
  - destruct (Tree.root t) as [r|] eqn:Hr.
    + split; [discriminate|]. intros _.
      unfold Tree.begin_. rewrite Hr. unfold Iterator.make.
      destruct (@incr_positioned K V (Iterator.mkIter (Some r) []) r eq_refl)
        as (top & Hc & _).
      cbn [Iterator.working_stack].
      unfold Iterator.neq, Iterator.at_end. now rewrite Hc.
    + split; [|congruence]. unfold Tree.begin_, Tree.end_. rewrite Hr.
      discriminate.
Qed.

(** X5. [begin()] of a tree with root [r] is on a node without left
    child, and that node, its right subtree and the nodes of the stack
    with their right subtrees make the whole tree in order; dereferencing
    it gives the first pair in order. *)
Theorem begin_first_in_order (t : tree) (r : node) :
  Tree.root t = Some r ->
  exists top,
    Iterator.current (Tree.begin_ t) = Some top /\
    Node.left top = None /\
    inorder r
      = visit top ++ flat_map visit (Iterator.working_stack (Tree.begin_ t)) /\
    Iterator.deref (Tree.begin_ t)
      = (Iterator.Returned (Node.key top, Node.value top), Tree.begin_ t).
Proof.
  intros Hr. unfold Tree.begin_. rewrite Hr. unfold Iterator.make.
  cbn [Iterator.working_stack].
  set (start := Iterator.mkIter (Some r) ([] : list node)).
  destruct (@incr_positioned K V start r eq_refl) as (top & Hc & Hl & _ & _).
  exists top. split; [exact Hc|]. split; [exact Hl|]. split.
  - rewrite incr_unfold in Hc |- *. cbn [snd start Iterator.current
      Iterator.working_stack] in Hc |- *.
    pose proof (descend_upcoming r []) as Hup.
    destruct (Iterator.descend r []) as [|top' rest]; simpl in Hc; [discriminate|].
    injection Hc as ->. cbn [Iterator.working_stack].
    simpl flat_map in Hup. rewrite app_nil_r in Hup. now rewrite <- Hup.
  - now apply deref_positioned.
Qed.

End IteratorOrder.

Lemma traverse_empty_finishes_witness :
  Tree.root (@Tree.empty Z Z) = None /\
  Iterator.neq (Tree.begin_ (@Tree.empty Z Z)) (Tree.end_ (@Tree.empty Z Z)) = false /\
  forall rounds, Tree.traverse rounds (@Tree.empty Z Z) = ([], Iterator.Finished).
Proof.
  split; [reflexivity|]. exact (traverse_empty_finishes (@Tree.empty Z Z) eq_refl).
Defined.

Lemma traverse_nonempty_never_ends_witness :
  Tree.root sample = Some sample_root /\
  exists kv more,
    inorder sample_root = kv :: more /\
    forall rounds,
      Tree.traverse rounds sample = (repeat kv rounds, Iterator.Running) /\
      snd (Tree.traverse rounds sample) <> Iterator.Finished.
Proof.
  split; [reflexivity|].
  exact (@traverse_nonempty_never_ends Z Z sample sample_root eq_refl).
Defined.

Lemma begin_first_in_order_witness :
  Tree.root sample = Some sample_root /\
  exists top,
    Iterator.current (Tree.begin_ sample) = Some top /\
    Node.left top = None /\
    inorder sample_root
      = visit top ++ flat_map visit (Iterator.working_stack (Tree.begin_ sample)) /\
    Iterator.deref (Tree.begin_ sample)
      = (Iterator.Returned (Node.key top, Node.value top), Tree.begin_ sample).
Proof.
  split; [reflexivity|].
  exact (@begin_first_in_order Z Z sample sample_root eq_refl).
Defined.

(** ** Lookup, insertion and removal together *)

Section Operations.

Context {K V : Type} {ops : KeyOps K} {dflt : Default V} {laws : KeyLaws K}.

Local Abbreviation node := (@Node.BinaryTreeNode K V).
Local Abbreviation tree := (@Tree.BinaryTree K V).

Lemma key_eq_dec (a b : K) : {a = b} + {a <> b}.
Proof.
  destruct (key_eq a b) eqn:E.
  - left. now apply key_eq_spec.
  - right. intros Hab. apply key_eq_spec in Hab. congruence.
Qed.

Lemma contains_decides (k : K) (n : node) :
  bst n ->
  (In k (keys (Some n)) /\ Node.contains k n = Some true) \/
  (~ In k (keys (Some n)) /\ Node.contains k n = Some false).
Proof.
  intros Hb. destruct (in_dec key_eq_dec k (keys (Some n))) as [Hin | Hnot].
  - left. split; [exact Hin|]. now apply contains_bst.
  - right. split; [exact Hnot|]. now apply contains_not_in.
Qed.

(** X6. On a search tree [contains] decides whether the key is stored:
    it returns [true] exactly for the keys the tree holds and [false]
    exactly for the others. *)
Theorem tree_contains_iff (k : K) (t : tree) :
  bst_tree t ->
  (Tree.contains k t = Some true <-> In k (keys (Tree.root t))) /\
  (Tree.contains k t = Some false <-> ~ In k (keys (Tree.root t))).
Proof.
  unfold bst_tree, Tree.contains. destruct (Tree.root t) as [r|]; simpl.
  - intros Hb. now apply contains_iff.
  - intros _. split; split; auto; try discriminate. tauto.
Qed.

Lemma find_contains_other (k k' : K) (n : node) :
  k' <> k ->
  Node.contains k' (fst (Node.find k n)) = Node.contains k' n.
Proof.
  intros Hne.
  assert (Hleaf : Node.contains k' (Node.new_node k) = Some false).
  { simpl. compare_keys k' k; [reflexivity | contradiction | reflexivity]. }
  induction n as [key value l r IHl IHr] using Node.node_induction.
  simpl Node.find. compare_keys k key.
  - destruct l as [l|]; simpl in IHl.
    + destruct (Node.find k l) as [l' p]. simpl in *. now rewrite IHl.
    + cbn [fst Node.contains]. now rewrite Hleaf.
  - reflexivity.
  - destruct r as [r|]; simpl in IHr.
    + destruct (Node.find k r) as [r' p]. simpl in *. now rewrite IHr.
    + cbn [fst Node.contains]. now rewrite Hleaf.
Qed.

(** X7. [operator[]] with key [k] makes [contains(k)] true and leaves
    the answer of [contains] for every other key as it was. *)
Theorem get_or_create_contains (k : K) (t : tree) :
  Tree.contains k (fst (Tree.get_or_create k t)) = Some true /\
  forall k', k' <> k ->
    Tree.contains k' (fst (Tree.get_or_create k t)) = Tree.contains k' t.
Proof.
  unfold Tree.get_or_create, Tree.contains.
  destruct t as [[r|]]; cbn [Tree.root].
  - pose proof (find_contains k r) as Hk.
    pose proof (fun k' => @find_contains_other k k' r) as Hother.
    destruct (Node.find k r) as [r' p]. simpl in *. auto.
  - rewrite find_new_node. cbn [fst Tree.root]. split.
    + simpl. now rewrite key_eq_refl.
    + intros k' Hne. simpl.
      compare_keys k' k; [reflexivity | contradiction | reflexivity].
Qed.

Lemma tree_erase_inorder_aux (k : K) (t : tree) :
  bst_tree t ->
  inorder_opt (Tree.root (Tree.erase k t))
    = drop_key k (inorder_opt (Tree.root t)).
Proof.
  unfold bst_tree, Tree.erase. intros Hb.
  destruct (Tree.root t) as [r|] eqn:Hr; simpl.
  - now apply erase_inorder.
  - now rewrite Hr.
Qed.

(** X8. [erase(k)] on a search tree leaves the other pairs as they were,
    keys and values, in the same order: what the tree holds afterwards is
    what it held without the pair of key [k]. *)
Theorem tree_erase_inorder (k : K) (t : tree) :
  bst_tree t ->
  inorder_opt (Tree.root (Tree.erase k t))
    = drop_key k (inorder_opt (Tree.root t)) /\
  forall k' v, k' <> k ->
    (In (k', v) (inorder_opt (Tree.root (Tree.erase k t)))
     <-> In (k', v) (inorder_opt (Tree.root t))).
Proof.
  intros Hb. pose proof (@tree_erase_inorder_aux k t Hb) as Heq.
  split; [exact Heq|]. intros k' v Hne. rewrite Heq.
  unfold drop_key. rewrite filter_In. cbn [fst].
  rewrite (key_eq_false Hne). simpl. tauto.
Qed.

(** X9. [erase(k)] on a search tree does not change what [contains]
    answers for any other key. *)
Theorem erase_other_keys (k k' : K) (t : tree) :
  bst_tree t -> k' <> k ->
  Tree.contains k' (Tree.erase k t) = Tree.contains k' t.
Proof.
  intros Hb Hne.
  assert (Hkeys : In k' (keys (Tree.root (Tree.erase k t)))
                  <-> In k' (keys (Tree.root t))).
  { unfold keys. rewrite (@tree_erase_inorder_aux k t Hb), keys_drop_key.
    rewrite filter_In, (key_eq_false Hne). simpl. tauto. }
  pose proof (@tree_erase_bst K V ops laws k t Hb) as Hb'.
  unfold bst_tree, Tree.contains in *.
  destruct (Tree.root (Tree.erase k t)) as [r'|],
           (Tree.root t) as [r|]; simpl in *.
  - destruct (@contains_decides k' r' Hb') as [[Hin ->] | [Hnot ->]];
      destruct (@contains_decides k' r Hb) as [[Hin2 ->] | [Hnot2 ->]];
      tauto.
  - destruct (@contains_decides k' r' Hb') as [[Hin ->] | [Hnot ->]];
      [apply Hkeys in Hin; contradiction | reflexivity].
  - destruct (@contains_decides k' r Hb) as [[Hin ->] | [Hnot ->]];
      [apply Hkeys in Hin; contradiction | reflexivity].
  - reflexivity.
Qed.

Lemma drop_key_length (k : K) (kvs : list (K * V)) :
  NoDup (map fst kvs) -> In k (map fst kvs) ->
  S (length (drop_key k kvs)) = length kvs.
Proof.
  induction kvs as [|[x v] kvs IH]; [simpl; contradiction|].
  cbn [map fst]. intros Hnd Hin. inversion Hnd as [|? ? Hx Hnd']; subst.
  rewrite drop_key_cons. destruct (key_eq_dec x k) as [-> | Hne].
  - rewrite key_eq_refl. cbn [negb app length].
    now rewrite drop_key_absent.
  - rewrite (key_eq_false Hne). cbn [negb app length]. f_equal.
    apply IH; [exact Hnd'|].
    destruct Hin as [Heq | Hin]; [contradiction | exact Hin].
Qed.

(** X10. [erase(k)] on a search tree that holds [k] takes away exactly
    one node. *)
Theorem erase_size (k : K) (t : tree) :
  bst_tree t -> Tree.contains k t = Some true ->
  S (size (Tree.root (Tree.erase k t))) = size (Tree.root t).
Proof.
  intros Hb Hc. unfold size. rewrite (@tree_erase_inorder_aux k t Hb).
  apply drop_key_length.
  - apply ascending_NoDup. apply (bst_ascending (Tree.root t)). exact Hb.
  - unfold bst_tree, Tree.contains in *.
    destruct (Tree.root t) as [r|]; [|discriminate].
    now apply contains_in.
Qed.

Lemma erase_plug_opt (c : context) (n : node) :
  bst (plug c n) ->
  Node.erase (Node.key n) (plug c n)
    = plug_opt c (Node.erase (Node.key n) n).
Proof.
  intros Hb.
  induction c as [|ck cv c IH cr | ck cv cl c IH]; simpl plug in *.
  - reflexivity.
  - apply bst_node in Hb as (Hl & _ & Hbl & _).
    rewrite Forall_forall in Hl. specialize (Hl _ (plug_key_in c n)).
    simpl. rewrite Hl, (IH Hbl). reflexivity.
  - apply bst_node in Hb as (_ & Hr & _ & Hbr).
    rewrite Forall_forall in Hr. specialize (Hr _ (plug_key_in c n)).
    simpl. rewrite Hr.
    rewrite key_gt_lt in Hr. rewrite (key_lt_asym _ _ Hr), (IH Hbr).
    reflexivity.
Qed.

(** X11. Let [k] be stored at a node of a search tree that lacks a
    child.  [erase(k)] takes the node out and puts its right child in its
    place if it has no left child, and its left child if it has a left
    but no right child; the rest of the tree stays as it is. *)
Theorem erase_one_child (c : context) (n : node) :
  bst (plug c n) ->
  (Node.left n = None ->
   Node.erase (Node.key n) (plug c n) = plug_opt c (Node.right n)) /\
  (Node.right n = None ->
   Node.erase (Node.key n) (plug c n) = plug_opt c (Node.left n)).
Proof.
  intros Hb. rewrite (erase_plug_opt c n Hb).
  destruct n as [key value l r]. simpl.
  rewrite key_gt_lt, key_lt_irrefl.
  split; intros ->; [reflexivity|]. now destruct l.
Qed.

Lemma erase_new_node (k : K) : Node.erase k (Node.new_node k) = None.
Proof.
  simpl. now rewrite key_gt_lt, key_lt_irrefl.
Qed.

Lemma find_erase (k : K) (n : node) :
  Node.contains k n = Some false ->
  Node.erase k (fst (Node.find k n)) = Some n.
Proof.
  induction n as [key value l r IHl IHr] using Node.node_induction.
  simpl Node.contains. simpl Node.find. compare_keys k key.
  - destruct l as [l|]; simpl in IHl.
    + intros Hc. specialize (IHl Hc).
      destruct (Node.find k l) as [l' p]. simpl in *.
      now rewrite Hlt, IHl.
    + intros _. cbn [fst Node.erase]. now rewrite Hlt, erase_new_node.
  - discriminate.
  - destruct r as [r|]; simpl in IHr.
    + intros Hc. specialize (IHr Hc).
      destruct (Node.find k r) as [r' p]. simpl in *.
      now rewrite Hlt, Hgt, IHr.
    + intros _. cbn [fst Node.erase]. now rewrite Hlt, Hgt, erase_new_node.
Qed.

(** X12. If [contains(k)] is false, then [operator[]] with [k] followed
    by [erase(k)] gives back the tree as it was. *)
Theorem get_or_create_then_erase (k : K) (t : tree) :
  Tree.contains k t = Some false ->
  Tree.erase k (fst (Tree.get_or_create k t)) = t.
Proof.
  unfold Tree.contains, Tree.get_or_create, Tree.erase.
  destruct t as [[r|]]; cbn [Tree.root].
  - intros Hc. pose proof (find_erase k r Hc) as He.
    destruct (Node.find k r) as [r' p]. simpl in *. now rewrite He.
  - intros _. rewrite find_new_node. cbn [fst Tree.root].
    now rewrite erase_new_node.
Qed.

(** [find] on a tree in which the value under [k] was just assigned
    comes to the same place and adds nothing. *)
Lemma find_after_assign (k : K) (v : V) (n : node) :
  let n' := fst (Node.find k n) in
  let p := snd (Node.find k n) in
  Node.find k (Node.assign p v n') = (Node.assign p v n', p) /\
  Node.read p (Node.assign p v n') = Some v.
Proof.
  induction n as [key value l r IHl IHr] using Node.node_induction.
  simpl Node.find. compare_keys k key.
  - destruct l as [l|]; simpl in IHl.
    + destruct (Node.find k l) as [l' p]. cbn [fst snd] in *.
      destruct IHl as [Hf Hr]. simpl. now rewrite Heq, Hlt, Hf.
    + simpl. now rewrite Heq, Hlt, key_eq_refl.
  - simpl. now rewrite Heq.
  - destruct r as [r|]; simpl in IHr.
    + destruct (Node.find k r) as [r' p]. cbn [fst snd] in *.
      destruct IHr as [Hf Hr]. simpl. now rewrite Heq, Hlt, Hf.
    + simpl. now rewrite Heq, Hlt, key_eq_refl.
Qed.

Lemma assign_assign (p : Node.ref) (v1 v2 : V) (n : node) :
  Node.assign p v2 (Node.assign p v1 n) = Node.assign p v2 n.
Proof.
  revert p.
  induction n as [key value l r IHl IHr] using Node.node_induction.
  intros [|[|] p]; simpl; try reflexivity.
  - destruct l as [l|]; [|reflexivity]. simpl in IHl. now rewrite IHl.
  - destruct r as [r|]; [|reflexivity]. simpl in IHr. now rewrite IHr.
Qed.

(** X13. After [tree[k] = v;] a second [tree[k]] adds no node and its
    reference reads [v]. *)
Theorem store_then_lookup (k : K) (v : V) (t : tree) :
  fst (Tree.get_or_create k (Tree.store k v t)) = Tree.store k v t /\
  Tree.read (snd (Tree.get_or_create k (Tree.store k v t)))
            (Tree.store k v t) = Some v.
Proof.
  unfold Tree.store, Tree.get_or_create, Tree.assign, Tree.read.
  destruct t as [[r|]]; cbn [Tree.root].
  - pose proof (find_after_assign k v r) as [Hf Hr].
    destruct (Node.find k r) as [r' p]. cbn [fst snd Tree.root] in *.
    rewrite Hf. cbn [fst snd Tree.root]. auto.
  - rewrite find_new_node. cbn [fst snd Tree.root]. simpl.
    rewrite key_eq_refl. auto.
Qed.

(** X14. Of two assignments to [tree[k]] in a row the second one counts:
    the tree is the one the second assignment alone would give. *)
Theorem store_twice (k : K) (v1 v2 : V) (t : tree) :
  Tree.store k v2 (Tree.store k v1 t) = Tree.store k v2 t.
Proof.
  unfold Tree.store, Tree.get_or_create, Tree.assign.
  destruct t as [[r|]]; cbn [Tree.root].
  - pose proof (find_after_assign k v1 r) as [Hf _].
    destruct (Node.find k r) as [r' p]. cbn [fst snd Tree.root] in *.
    rewrite Hf. cbn [Tree.root]. now rewrite assign_assign.
  - rewrite find_new_node. cbn [fst snd Tree.root]. simpl.
    rewrite key_eq_refl. reflexivity.
Qed.



(** X16. [tree[k] = v;] sets the value of one pair of key [k] and changes
    nothing else of what [tree[k]] leaves: the other pairs keep their
    keys, values and places. *)
Theorem store_changes_one_pair (k : K) (v : V) (t : tree) :
  exists before v0 after,
    inorder_opt (Tree.root (fst (Tree.get_or_create k t)))
      = before ++ (k, v0) :: after /\
    inorder_opt (Tree.root (Tree.store k v t)) = before ++ (k, v) :: after.
Proof.
  unfold Tree.store, Tree.get_or_create, Tree.assign.
  set (r := match Tree.root t with
            | Some r => r
            | None => Node.new_node k
            end).
  pose proof (find_location k r) as (before & v0 & after & Hin & _ & Hset).
  destruct (Node.find k r) as [r' p]. cbn [fst snd Tree.root inorder_opt] in *.
  exists before, v0, after. auto.
Qed.

(** X17. Whatever calls of the public interface built the tree, the keys
    it holds are, in order, strictly ascending and without repetition. *)
Theorem contents_sorted (cs : list Tree.call) :
  ascending (keys (Tree.root (Tree.run_all cs (@Tree.empty K V)))) /\
  NoDup (keys (Tree.root (Tree.run_all cs (@Tree.empty K V)))).
Proof. exact (contents_ascending cs). Qed.

End Operations.

(** ** Teardown *)

Section Teardown.

Context {K V : Type}.

Local Abbreviation node := (@Node.BinaryTreeNode K V).
Local Abbreviation tree := (@Tree.BinaryTree K V).




End Teardown.

(** ** The further properties on integer keys *)

Lemma tree_contains_iff_witness :
  bst_tree sample /\
  (Tree.contains 4%Z sample = Some true <-> In 4%Z (keys (Tree.root sample))) /\
  (Tree.contains 4%Z sample = Some false <-> ~ In 4%Z (keys (Tree.root sample))).
Proof.
  assert (Hb : bst_tree sample) by prove_bst.
  split; [exact Hb|]. exact (tree_contains_iff (laws := Z_KeyLaws) 4%Z sample Hb).
Defined.

Lemma get_or_create_contains_witness :
  KeyLaws Z /\
  Tree.contains 7%Z (fst (Tree.get_or_create 7%Z sample)) = Some true /\
  forall k', k' <> 7%Z ->
    Tree.contains k' (fst (Tree.get_or_create 7%Z sample)) = Tree.contains k' sample.
Proof.
  split; [exact Z_KeyLaws|].
  exact (get_or_create_contains (laws := Z_KeyLaws) 7%Z sample).
Defined.

Lemma tree_erase_inorder_witness :
  bst_tree sample /\
  inorder_opt (Tree.root (Tree.erase 3%Z sample))
    = drop_key 3%Z (inorder_opt (Tree.root sample)) /\
  forall k' v, k' <> 3%Z ->
    (In (k', v) (inorder_opt (Tree.root (Tree.erase 3%Z sample)))
     <-> In (k', v) (inorder_opt (Tree.root sample))).
Proof.
  assert (Hb : bst_tree sample) by prove_bst.
  split; [exact Hb|]. exact (tree_erase_inorder (laws := Z_KeyLaws) 3%Z sample Hb).
Defined.

Lemma erase_other_keys_witness :
  bst_tree sample /\ 4%Z <> 3%Z /\
  Tree.contains 4%Z (Tree.erase 3%Z sample) = Tree.contains 4%Z sample.
Proof.
  assert (Hb : bst_tree sample) by prove_bst.
  assert (Hne : 4%Z <> 3%Z) by lia.
  split; [exact Hb|]. split; [exact Hne|].
  exact (erase_other_keys (laws := Z_KeyLaws) sample Hb Hne).
Defined.

Lemma erase_size_witness :
  bst_tree sample /\ Tree.contains 5%Z sample = Some true /\
  S (size (Tree.root (Tree.erase 5%Z sample))) = size (Tree.root sample).
Proof.
  assert (Hb : bst_tree sample) by prove_bst.
  split; [exact Hb|]. split; [reflexivity|].
  exact (erase_size (laws := Z_KeyLaws) 5%Z sample Hb eq_refl).
Defined.

Lemma erase_one_child_witness :
  let c := InRight 5%Z 50%Z (Some (leaf 3 30)) Top in
  let n := Node.mkNode 8%Z 80%Z None (Some (leaf 9 90)) in
  bst (plug c n) /\
  (Node.left n = None ->
   Node.erase (Node.key n) (plug c n) = plug_opt c (Node.right n)) /\
  (Node.right n = None ->
   Node.erase (Node.key n) (plug c n) = plug_opt c (Node.left n)).
Proof.
  intros c n.
  assert (Hb : bst (plug c n)) by prove_bst.
  split; [exact Hb|]. exact (erase_one_child (laws := Z_KeyLaws) c n Hb).
Defined.

Lemma get_or_create_then_erase_witness :
  Tree.contains 7%Z sample = Some false /\
  Tree.erase 7%Z (fst (Tree.get_or_create 7%Z sample)) = sample.
Proof.
  split; [reflexivity|].
  exact (get_or_create_then_erase (laws := Z_KeyLaws) 7%Z sample eq_refl).
Defined.

Lemma store_then_lookup_witness :
  KeyLaws Z /\
  fst (Tree.get_or_create 4%Z (Tree.store 4%Z 44%Z sample))
    = Tree.store 4%Z 44%Z sample /\
  Tree.read (snd (Tree.get_or_create 4%Z (Tree.store 4%Z 44%Z sample)))
            (Tree.store 4%Z 44%Z sample) = Some 44%Z.
Proof.
  split; [exact Z_KeyLaws|].
  exact (store_then_lookup (laws := Z_KeyLaws) 4%Z 44%Z sample).
Defined.

Lemma store_twice_witness :
  KeyLaws Z /\
  Tree.store 6%Z 2%Z (Tree.store 6%Z 1%Z sample) = Tree.store 6%Z 2%Z sample.
Proof.
  split; [exact Z_KeyLaws|].
  exact (store_twice (laws := Z_KeyLaws) 6%Z 1%Z 2%Z sample).
Defined.


Lemma store_changes_one_pair_witness :
  KeyLaws Z /\
  exists before v0 after,
    inorder_opt (Tree.root (fst (Tree.get_or_create 4%Z sample)))
      = before ++ (4%Z, v0) :: after /\
    inorder_opt (Tree.root (Tree.store 4%Z 44%Z sample))
      = before ++ (4%Z, 44%Z) :: after.
Proof.
  split; [exact Z_KeyLaws|].
  exact (store_changes_one_pair (laws := Z_KeyLaws) 4%Z 44%Z sample).
Defined.

Lemma contents_sorted_witness :
  KeyLaws Z /\
  ascending (keys (Tree.root (Tree.run_all
     [Tree.CallStore 2 20; Tree.CallIndex 1; Tree.CallErase 2]%Z
     (@Tree.empty Z Z)))) /\
  NoDup (keys (Tree.root (Tree.run_all
     [Tree.CallStore 2 20; Tree.CallIndex 1; Tree.CallErase 2]%Z
     (@Tree.empty Z Z)))).
Proof.
  split; [exact Z_KeyLaws|].
  exact (contents_sorted (laws := Z_KeyLaws)
           [Tree.CallStore 2 20; Tree.CallIndex 1; Tree.CallErase 2]%Z).
Defined.

(** ** Two more facts on search trees *)

Section SearchTrees.

Context {K V : Type} {ops : KeyOps K} {dflt : Default V} {laws : KeyLaws K}.

Local Abbreviation node := (@Node.BinaryTreeNode K V).
Local Abbreviation tree := (@Tree.BinaryTree K V).

(** X19. On a search tree with a root, [begin()] is on the node with the
    smallest key: every key of the tree is that key or greater. *)
Theorem begin_at_smallest_key (t : tree) (r : node) :
  bst_tree t -> Tree.root t = Some r ->
  exists top,
    Iterator.current (Tree.begin_ t) = Some top /\
    In (Node.key top) (keys (Tree.root t)) /\
    forall x, In x (keys (Tree.root t)) ->
              x = Node.key top \/ key_lt (Node.key top) x = true.
Proof.
  intros Hb Hr.
  apply (bst_ascending (Tree.root t)) in Hb.
  unfold Tree.begin_, Iterator.make. rewrite Hr in *.
  cbn [Iterator.working_stack].
  destruct (@incr_positioned K V (Iterator.mkIter (Some r) []) r eq_refl)
    as (top & Hc & _ & (more & Hin) & _).
  exists top. split; [exact Hc|].
  unfold keys in *. cbn [inorder_opt] in *. rewrite Hin in *.
  cbn [map fst] in *. split; [now left|].
  apply StronglySorted_inv in Hb as [_ Hall].
  rewrite Forall_forall in Hall.
  intros x [<- | Hx]; auto.
Qed.

(** X20. A second [tree[k]] right after the first changes nothing: the
    key is there already and no node is added. *)
Theorem get_or_create_twice (k : K) (t : tree) :
  fst (Tree.get_or_create k (fst (Tree.get_or_create k t)))
    = fst (Tree.get_or_create k t).
Proof.
  assert (Hnode : forall n : node,
            fst (Node.find k (fst (Node.find k n))) = fst (Node.find k n)).
  { intros n.
    destruct (find_inorder k (fst (Node.find k n))) as [[_ Hsame] | [Hc _]];
      [exact Hsame|].
    rewrite find_contains in Hc. discriminate. }
  unfold Tree.get_or_create.
  set (r := match Tree.root t with
            | Some r => r
            | None => Node.new_node k
            end).
  specialize (Hnode r).
  destruct (Node.find k r) as [r' p]. cbn [fst Tree.root] in *.
  destruct (Node.find k r') as [r'' p']. cbn [fst] in *. now subst r''.
Qed.

End SearchTrees.

Lemma begin_at_smallest_key_witness :
  bst_tree sample /\ Tree.root sample = Some sample_root /\
  exists top,
    Iterator.current (Tree.begin_ sample) = Some top /\
    In (Node.key top) (keys (Tree.root sample)) /\
    forall x, In x (keys (Tree.root sample)) ->
              x = Node.key top \/ key_lt (Node.key top) x = true.
Proof.
  assert (Hb : bst_tree sample) by prove_bst.
  split; [exact Hb|]. split; [reflexivity|].
  exact (begin_at_smallest_key (laws := Z_KeyLaws) sample Hb eq_refl).
Defined.

Lemma get_or_create_twice_witness :
  KeyLaws Z /\
  fst (Tree.get_or_create 7%Z (fst (Tree.get_or_create 7%Z sample)))
    = fst (Tree.get_or_create 7%Z sample).
Proof.
  split; [exact Z_KeyLaws|].
  exact (get_or_create_twice (laws := Z_KeyLaws) 7%Z sample).
Defined.
